(** * DenoScript: the permission manager

    A shallow embedding of the permission-aggregation code of DenoScript and
    the properties its specification states about it.

    Sources embedded here:
    - [src/unnamed/part_002]     the [Permission] descriptor factory;
    - [src/PermissionManager.ts] the array-backed [PermissionManager]
                                 ([src/mod.ts] carries the same class, with
                                 [settle] named [wait]);
    - [src/unnamed/part_000]     the earlier, map-backed [PermissionManager]
                                 with its inline [desc] builder;
    - [src/mod.ts]               the file helpers [pwd], [ls], [cat], [isFile]
                                 and [isDir];
    - [src/shell.ts]             the command line of the [$] template tag.

    The host runtime ([Deno.permissions]) is an external collaborator. It is
    modelled by the log of the calls made to it and by an oracle [answer] that
    says how the host settles each call: with one of the states [granted],
    [denied] and [prompt], or with a rejection, which no method catches. *)

From stdpp Require Import gmap strings list fin_maps sorting.

Local Open Scope string_scope.
Local Open Scope list_scope.

(** ** Descriptors and the host API *)

(** [const permissions = ["env", "read", "write", "net", "run", "hrtime", "ffi"] as const]
    and [type PName = typeof permissions[number]]: the closed set of names. *)
Inductive PName : Type := Env | Read | Write | Net | Run | Hrtime | Ffi.

Definition permissions : list PName := [Env; Read; Write; Net; Run; Hrtime; Ffi].

(** The string each name is at run time. *)
Definition name_str (n : PName) : string :=
  match n with
  | Env => "env"
  | Read => "read"
  | Write => "write"
  | Net => "net"
  | Run => "run"
  | Hrtime => "hrtime"
  | Ffi => "ffi"
  end.

Global Instance PName_eq_dec : EqDecision PName.
Proof. solve_decision. Defined.

(** [Deno.PermissionDescriptor] as the code builds it: an object with a [name]
    and the optional properties [host], [command], [variable] and [path]. A
    property that is absent and one that holds [undefined] both read as
    [None]. *)
Record P : Type := mkP {
  name : PName;
  host : option string;
  command : option string;
  variable : option string;
  path : option string
}.

Global Instance P_eq_dec : EqDecision P.
Proof. solve_decision. Defined.

(** The object literal [{ name }]. *)
Definition unscoped (n : PName) : P :=
  {| name := n; host := None; command := None; variable := None; path := None |}.

(** The scope value a descriptor carries, whatever property holds it. *)
Definition scope (d : P) : option string :=
  match host d, command d, variable d, path d with
  | Some s, _, _, _ => Some s
  | None, Some s, _, _ => Some s
  | None, None, Some s, _ => Some s
  | None, None, None, o => o
  end.

(** [Deno.PermissionState]. *)
Inductive PermissionState : Type := granted | denied | prompt.

Global Instance PermissionState_eq_dec : EqDecision PermissionState.
Proof. solve_decision. Defined.

(** The two host primitives, [Deno.permissions.request] and
    [Deno.permissions.query], as entries of the host's call log. *)
Inductive HostCall : Type :=
| Request (desc : P)
| Query (desc : P).

Global Instance HostCall_eq_dec : EqDecision HostCall.
Proof. solve_decision. Defined.

(** The error objects: the one the code makes with [new Error(message)],
    and the one the host rejects a call with, which is never an object the
    code made; [reason] tells the host's error objects apart. *)
Inductive Exn : Type :=
| Error (message : string)
| HostError (reason : string).

(** How an awaited promise, or a method, completes: it returns a value or it
    throws. *)
Inductive Completion (A : Type) : Type :=
| Return (a : A)
| Throw (e : Exn).
Arguments Return {A} _.
Arguments Throw {A} _.

(** How the host settles a call: the promise of the call resolves with a
    state, or it rejects. *)
Inductive Settlement : Type :=
| Settled (state : PermissionState)
| Rejected (reason : string).

(** The host: how it settles each call. It may depend on the position of
    the call in the log, so the same descriptor can be answered differently
    at different times. *)
Definition Oracle : Type := nat → HostCall → Settlement.

(** A promise that a host call backs: [ticket] is the position of the call in
    the log, [asked] the call, and [on_settle] what the async function that
    awaits the host maps the state to. *)
Record Promise (A : Type) : Type := mkPromise {
  ticket : nat;
  asked : HostCall;
  on_settle : PermissionState → A
}.
Arguments mkPromise {A} _ _ _.
Arguments ticket {A} _.
Arguments asked {A} _.
Arguments on_settle {A} _ _.

(** [await p]: the value the async function made of the host's state, or
    the host's rejection, thrown on. *)
Definition await {A} (answer : Oracle) (p : Promise A) : Completion A :=
  match answer (ticket p) (asked p) with
  | Settled st => Return (on_settle p st)
  | Rejected reason => Throw (HostError reason)
  end.

(** [await Promise.all(...)] of promises that complete as [cs] says: the
    values in order, or the rejection of the first promise that rejects. The
    host has settled a call when the call returns, so the first promise to
    reject is the first in the order of the array. *)
Fixpoint all_of {A} (cs : list (Completion A)) : Completion (list A) :=
  match cs with
  | [] => Return []
  | Return a :: cs' =>
      match all_of cs' with
      | Return l => Return (a :: l)
      | Throw e => Throw e
      end
  | Throw e :: _ => Throw e
  end.

(** [await Promise.all(ps)]. *)
Definition Promise_all {A} (answer : Oracle) (ps : list (Promise A)) : Completion (list A) :=
  all_of (map (await answer) ps).

(** [Array.prototype.includes] on booleans. *)
Definition includes (x : bool) (l : list bool) : bool :=
  existsb (Bool.eqb x) l.

(** [const req = await host; return f(req)] inside an async function: the
    promise the function returns. *)
Definition then_ {A B} (p : Promise A) (f : A → B) : Promise B :=
  {| ticket := ticket p; asked := asked p; on_settle := λ st, f (on_settle p st) |}.

(** ** The world: the host's call log and the manager's [permissions] field *)

Record World (R : Type) : Type := mkWorld {
  host_log : list HostCall;
  this_permissions : R
}.
Arguments mkWorld {R} _ _.
Arguments host_log {R} _.
Arguments this_permissions {R} _.

(** Methods thread the world; an async method is modelled by the value its
    promise settles to, the host calls it makes happening when it is called,
    in source order. *)
Definition M (R A : Type) : Type := World R → A * World R.

Global Instance M_ret {R} : MRet (M R) := λ A a w, (a, w).
Global Instance M_bind {R} : MBind (M R) :=
  λ A B f m w, let '(a, w') := m w in f a w'.

Definition exec {R A} (m : M R A) (w : World R) : World R := snd (m w).
Definition eval {R A} (m : M R A) (w : World R) : A := fst (m w).

(** [xs.forEach(f)]. *)
Fixpoint forEach {R A} (f : A → M R unit) (xs : list A) : M R unit :=
  match xs with
  | [] => mret tt
  | x :: xs' => f x ;; forEach f xs'
  end.

(** [Deno.permissions.request(desc)] and [Deno.permissions.query(desc)]: the
    call is logged at once and a promise of the host's state is returned. *)
Definition host_call {R} (c : HostCall) : M R (Promise PermissionState) :=
  λ w, (mkPromise (length (host_log w)) c id,
        mkWorld (host_log w ++ [c]) (this_permissions w)).

Definition Deno_permissions_request {R} (desc : P) : M R (Promise PermissionState) :=
  host_call (Request desc).

Definition Deno_permissions_query {R} (desc : P) : M R (Promise PermissionState) :=
  host_call (Query desc).

(** [req.state === "granted"]. *)
Definition is_granted (st : PermissionState) : bool :=
  bool_decide (st = granted).

(** [private async requestPermission(desc)] (the same in both snapshots). *)
Definition requestPermission {R} (desc : P) : M R (Promise bool) :=
  req ← Deno_permissions_request desc;
  mret (then_ req is_granted).

(** The promise [requestPermission(desc)] returns when the request is the
    [i]-th call the host receives. *)
Definition request_promise (i : nat) (desc : P) : Promise bool :=
  then_ (mkPromise i (Request desc) id) is_granted.

(** [private async query(desc)] (the same in both snapshots). *)
Definition query {R} (desc : P) : M R (Promise bool) :=
  req ← Deno_permissions_query desc;
  mret (then_ req is_granted).

(** [T | T[]]. *)
Inductive MaybeArray (A : Type) : Type :=
| One (a : A)
| Many (l : list A).
Arguments One {A} _.
Arguments Many {A} _.

(** The argument of [pushPermission]: a descriptor or ["*"]. *)
Inductive Perm : Type :=
| Star
| Desc (perm : P).

(** ** [Permission]: the descriptor factory (src/unnamed/part_002) *)
Module Permission.

(** Each static has a single-value and an array overload. *)
Definition env (variable : option string) : P :=
  {| name := Env; host := None; command := None; variable := variable; path := None |}.
Definition env_array (variable : list string) : list P :=
  map (λ v, env (Some v)) variable.

Definition read (path : option string) : P :=
  {| name := Read; host := None; command := None; variable := None; path := path |}.
Definition read_array (path : list string) : list P :=
  map (λ p, read (Some p)) path.

Definition write (path : option string) : P :=
  {| name := Write; host := None; command := None; variable := None; path := path |}.
Definition write_array (path : list string) : list P :=
  map (λ p, write (Some p)) path.

Definition net (host : option string) : P :=
  {| name := Net; host := host; command := None; variable := None; path := None |}.
Definition net_array (host : list string) : list P :=
  map (λ h, net (Some h)) host.

Definition run (cmd : option string) : P :=
  {| name := Run; host := None; command := cmd; variable := None; path := None |}.
Definition run_array (cmd : list string) : list P :=
  map (λ c, run (Some c)) cmd.

Definition ffi (path : option string) : P :=
  {| name := Ffi; host := None; command := None; variable := None; path := path |}.
Definition ffi_array (path : list string) : list P :=
  map (λ p, ffi (Some p)) path.

Definition hrtime : P := unscoped Hrtime.

End Permission.

(** ** [PermissionManager] (src/PermissionManager.ts) *)
Module PermissionManager.

(** [private permissions = new Array<Promise<boolean>>()]. *)
Abbreviation Registry := (list (Promise bool)).

(** [new PermissionManager()] in a host nothing was asked of yet. *)
Definition fresh : World Registry := mkWorld [] [].

(** [private static instance] and [public static getInstance()], on the
    static slot: the first call makes the manager, later calls return the
    one that is there. A manager is its [permissions] field. *)
Definition getInstance (instance : option Registry) : Registry * option Registry :=
  match instance with
  | None => ([], Some [])
  | Some this => (this, Some this)
  end.

(** The single-value branches of [desc(name, o)]:
    [if (name !== "hrtime") return Permission[name](o); else return Permission[name]();] *)
Definition desc (name : PName) (o : option string) : P :=
  if bool_decide (name ≠ Hrtime) then
    match name with
    | Env => Permission.env o
    | Read => Permission.read o
    | Write => Permission.write o
    | Net => Permission.net o
    | Run => Permission.run o
    | Ffi => Permission.ffi o
    | Hrtime => Permission.hrtime
    end
  else Permission.hrtime.

(** The array branch of [desc]: [if (Array.isArray(o)) return o.map((v) => desc(name, v))]. *)
Definition desc_array (name : PName) (o : list string) : list P :=
  map (λ v, desc name (Some v)) o.

(** [this.permissions.push(p)]. *)
Definition push (p : Promise bool) : M Registry unit :=
  λ w, (tt, mkWorld (host_log w) (this_permissions w ++ [p])).

(** [private pushPermission(perm)]; [return this] is the chaining handle and
    carries no value. *)
Definition pushPermission (perm : Perm) : M Registry unit :=
  match perm with
  | Star =>
      forEach (λ name, p ← requestPermission (unscoped name); push p) permissions
  | Desc perm => p ← requestPermission perm; push p
  end.

(** [permission(name, o)]. *)
Definition permission (name : PName) (o : option (MaybeArray string)) : M Registry unit :=
  match o with
  | Some (Many o) => forEach (λ v, pushPermission (Desc (desc name (Some v)))) o
  | Some (One o) => pushPermission (Desc (desc name (Some o)))
  | None => pushPermission (Desc (desc name None))
  end.

(** The shorthands. *)
Definition all : M Registry unit := pushPermission Star.
Definition env (v : option (MaybeArray string)) : M Registry unit := permission Env v.
Definition read (v : option (MaybeArray string)) : M Registry unit := permission Read v.
Definition write (v : option (MaybeArray string)) : M Registry unit := permission Write v.
Definition net (v : option (MaybeArray string)) : M Registry unit := permission Net v.
Definition run (v : option (MaybeArray string)) : M Registry unit := permission Run v.
Definition ffi (v : option (MaybeArray string)) : M Registry unit := permission Ffi v.
Definition hrtime : M Registry unit := permission Hrtime None.

Section Host.
Variable answer : Oracle.

(** [can(n, o)] for a single optional value: [return await this.query(desc(n, o))]. *)
Definition can_one (n : PName) (o : option string) : M Registry (Completion bool) :=
  p ← query (desc n o);
  mret (await answer p).

(** [async can(n, o)]: for an array,
    [const promises = o.map(v => this.can(n, v));
     return (await Promise.all(promises)).includes(false);]
    every query of the batch is made before any is awaited. *)
Definition can (n : PName) (o : option (MaybeArray string)) : M Registry (Completion bool) :=
  match o with
  | Some (Many o) =>
      promises ← mapM (λ v, can_one n (Some v)) o;
      mret (match all_of promises with
            | Return answers => Return (includes false answers)
            | Throw e => Throw e
            end)
  | Some (One o) => can_one n (Some o)
  | None => can_one n None
  end.

(** [async settle()]. *)
Definition settle : M Registry (Completion bool) :=
  λ w, (match Promise_all answer (this_permissions w) with
        | Return promises => Return (negb (includes false promises))
        | Throw e => Throw e
        end, w).

(** [async ensure()]: [await this.settle()] is not in a [try], so what
    [settle] throws is thrown on. *)
Definition ensure : M Registry (Completion unit) :=
  settled ← settle;
  mret (match settled with
        | Return ok => if negb ok then Throw (Error "Permission denied") else Return tt
        | Throw e => Throw e
        end).

(** The public instance methods, as calls. *)
Inductive Call : Type :=
| call_permission (name : PName) (o : option (MaybeArray string))
| call_all
| call_env (v : option (MaybeArray string))
| call_read (v : option (MaybeArray string))
| call_write (v : option (MaybeArray string))
| call_net (v : option (MaybeArray string))
| call_run (v : option (MaybeArray string))
| call_ffi (v : option (MaybeArray string))
| call_hrtime
| call_can (n : PName) (o : option (MaybeArray string))
| call_settle
| call_ensure.

(** What a call returns: the chaining handle [this], a boolean or nothing. *)
Inductive Value : Type :=
| v_this
| v_bool (b : bool)
| v_void.

(** What a method that returns a boolean, or nothing, completes with, as a
    completion with a [Value]. *)
Definition as_bool (r : Completion bool) : Completion Value :=
  match r with
  | Return b => Return (v_bool b)
  | Throw e => Throw e
  end.

Definition as_void (r : Completion unit) : Completion Value :=
  match r with
  | Return _ => Return v_void
  | Throw e => Throw e
  end.

(** A call, with its completion. The accumulating methods keep the promise
    of the request and await nothing: they return [this] however the host
    settles the request. *)
Definition call (c : Call) : M Registry (Completion Value) :=
  match c with
  | call_permission name o => permission name o ;; mret (Return v_this)
  | call_all => all ;; mret (Return v_this)
  | call_env v => env v ;; mret (Return v_this)
  | call_read v => read v ;; mret (Return v_this)
  | call_write v => write v ;; mret (Return v_this)
  | call_net v => net v ;; mret (Return v_this)
  | call_run v => run v ;; mret (Return v_this)
  | call_ffi v => ffi v ;; mret (Return v_this)
  | call_hrtime => hrtime ;; mret (Return v_this)
  | call_can n o => r ← can n o; mret (as_bool r)
  | call_settle => r ← settle; mret (as_bool r)
  | call_ensure => r ← ensure; mret (as_void r)
  end.

(** The world after a call, and after a sequence of calls, first call first. *)
Definition step (c : Call) (w : World Registry) : World Registry :=
  exec (call c) w.

Definition steps (cs : list Call) (w : World Registry) : World Registry :=
  fold_left (λ w c, step c w) cs w.

End Host.

(** [n] calls of [pushPermission(perm)] in a row. *)
Fixpoint pushPermission_times (n : nat) (perm : Perm) : M Registry unit :=
  match n with
  | 0 => mret tt
  | S n' => pushPermission perm ;; pushPermission_times n' perm
  end.

(** The host requests made for a descriptor, and the tracked promises that
    were made for it. *)
Definition requests_for (d : P) (w : World Registry) : nat :=
  length (filter (λ c, c = Request d) (host_log w)).

Definition tracked_for (d : P) (w : World Registry) : nat :=
  length (filter (λ p, asked p = Request d) (this_permissions w)).

(** The descriptors the tracked promises were made for, in tracking order. *)
Definition tracked (w : World Registry) : list HostCall :=
  map asked (this_permissions w).

End PermissionManager.

(** ** The earlier [PermissionManager] (src/unnamed/part_000) *)
Module MapPermissionManager.

(** [private permissions = new Map<string, Promise<boolean>>()]. The map
    is read through [has], [set] and [values] only. *)
Abbreviation Registry := (gmap string (Promise bool)).

Definition fresh : World Registry := mkWorld [] ∅.

(** [a || b] on strings: the empty string is the only falsy one. *)
Definition js_or (a b : string) : string :=
  if bool_decide (a = "") then b else a.

(** [function desc(name, optional)]: a [switch] compares [name] with each
    case expression by [===], in order; the fourth case expression is
    ["read" || "write" || "ffi"]. *)
Definition desc (name : PName) (optional : option string) : P :=
  let tag := name_str name in
  if bool_decide (tag = "net") then
    {| name := name; host := optional; command := None; variable := None; path := None |}
  else if bool_decide (tag = "run") then
    {| name := name; host := None; command := optional; variable := None; path := None |}
  else if bool_decide (tag = "env") then
    {| name := name; host := None; command := None; variable := optional; path := None |}
  else if bool_decide (tag = js_or (js_or "read" "write") "ffi") then
    {| name := name; host := None; command := None; variable := None; path := optional |}
  else unscoped name.

(** [this.permissions.has(key)] and [this.permissions.set(key, p)]. *)
Definition has (key : string) : M Registry bool :=
  λ w, (bool_decide (is_Some (this_permissions w !! key)), w).

Definition set (key : string) (p : Promise bool) : M Registry unit :=
  λ w, (tt, mkWorld (host_log w) (<[key := p]> (this_permissions w))).

(** The order of the tickets. *)
Definition ticket_le (p q : Promise bool) : Prop := (ticket p ≤ ticket q)%nat.

Global Instance ticket_le_dec : RelDecision ticket_le.
Proof. intros p q. unfold ticket_le. apply _. Defined.

(** [this.permissions.values()]: the promises in the order of insertion. The
    map does not keep that order; [set] is only reached with the promise of
    a request just made, so it is the order of the tickets. *)
Definition values (m : Registry) : list (Promise bool) :=
  merge_sort ticket_le (map snd (map_to_list m)).

(** [private pushPermission(perm)]. *)
Definition pushPermission (perm : Perm) : M Registry unit :=
  match perm with
  | Star =>
      forEach
        (λ name : PName,
           tracked ← has (name_str name);
           if tracked : bool then (mret tt : M Registry unit)
           else p ← requestPermission (unscoped name); set (name_str name) p)
        permissions
  | Desc perm =>
      tracked ← has (name_str (name perm));
      if negb tracked then p ← requestPermission perm; set (name_str (name perm)) p
      else (mret tt : M Registry unit)
  end.

(** Getting permissions. *)
Definition all : M Registry unit := pushPermission Star.
Definition env (variable : option string) : M Registry unit :=
  pushPermission (Desc {| name := Env; host := None; command := None; variable := variable; path := None |}).
Definition read (path : option string) : M Registry unit :=
  pushPermission (Desc {| name := Read; host := None; command := None; variable := None; path := path |}).
Definition write (path : option string) : M Registry unit :=
  pushPermission (Desc {| name := Write; host := None; command := None; variable := None; path := path |}).
Definition net (host : option string) : M Registry unit :=
  pushPermission (Desc {| name := Net; host := host; command := None; variable := None; path := None |}).
Definition run (command : option string) : M Registry unit :=
  pushPermission (Desc {| name := Run; host := None; command := command; variable := None; path := None |}).
Definition hrtime : M Registry unit := pushPermission (Desc (unscoped Hrtime)).
Definition ffi (path : option string) : M Registry unit :=
  pushPermission (Desc {| name := Ffi; host := None; command := None; variable := None; path := path |}).

Section Host.
Variable answer : Oracle.

(** [async can(n, o)]: [return await this.query(desc(n, o))]. *)
Definition can (n : PName) (o : option string) : M Registry (Completion bool) :=
  p ← query (desc n o);
  mret (await answer p).

(** [async wait()]. *)
Definition wait : M Registry (Completion bool) :=
  λ w, (match Promise_all answer (values (this_permissions w)) with
        | Return promises => Return (negb (includes false promises))
        | Throw e => Throw e
        end, w).

(** [async ensure()]: what [wait] throws is thrown on. *)
Definition ensure : M Registry (Completion unit) :=
  waited ← wait;
  mret (match waited with
        | Return ok => if negb ok then Throw (Error "Permission denied") else Return tt
        | Throw e => Throw e
        end).

End Host.

(** [n] calls of [pushPermission(perm)] in a row. *)
Fixpoint pushPermission_times (n : nat) (perm : Perm) : M Registry unit :=
  match n with
  | 0 => mret tt
  | S n' => pushPermission perm ;; pushPermission_times n' perm
  end.

(** The host requests made for a descriptor. *)
Definition requests_for (d : P) (w : World Registry) : nat :=
  length (filter (λ c, c = Request d) (host_log w)).

Section Calls.
Variable answer : Oracle.

(** The public instance methods, as calls. *)
Inductive Call : Type :=
| call_all
| call_env (variable : option string)
| call_read (path : option string)
| call_write (path : option string)
| call_net (host : option string)
| call_run (command : option string)
| call_hrtime
| call_ffi (path : option string)
| call_can (n : PName) (o : option string)
| call_wait
| call_ensure.

(** The world after a call, and after a sequence of calls, first call first. *)
Definition step (c : Call) (w : World Registry) : World Registry :=
  match c with
  | call_all => exec all w
  | call_env variable => exec (env variable) w
  | call_read path => exec (read path) w
  | call_write path => exec (write path) w
  | call_net host => exec (net host) w
  | call_run command => exec (run command) w
  | call_hrtime => exec hrtime w
  | call_ffi path => exec (ffi path) w
  | call_can n o => exec (can answer n o) w
  | call_wait => exec (wait answer) w
  | call_ensure => exec (ensure answer) w
  end.

Definition steps (cs : list Call) (w : World Registry) : World Registry :=
  fold_left (λ w c, step c w) cs w.

End Calls.

End MapPermissionManager.

(** ** The file helpers (src/mod.ts) *)
Module Mod.

(** An optional string that is truthy: [undefined] and the empty string are
    the falsy ones. *)
Definition truthy_string (d : option string) : option string :=
  match d with
  | Some s => if bool_decide (s = "") then None else Some s
  | None => None
  end.

Section Host.
(** The host's file system at the time of the call: what [Deno.cwd()],
    reading a directory, reading a file and [new TextDecoder(label)]
    complete with. Each of them can throw. [Data] is a [Uint8Array]. *)
Variables DirEntry Data : Type.
Variable Deno_cwd : Completion string.
Variable Deno_readDir : string → Completion (list DirEntry).
Variable Deno_readFile : string → Completion Data.
Variable TextDecoder : string → Completion (Data → string).

(** [pwd()]. *)
Definition pwd : Completion string := Deno_cwd.

(** [for await (const member of Deno.readDir(path)) dirs.push(member)]: the
    entries, collected in the order the host yields them; an error of the
    host is thrown on. *)
Definition collect (path : string) : Completion (list DirEntry) :=
  match Deno_readDir path with
  | Return dir => Return (fold_left (λ dirs member, dirs ++ [member]) dir [])
  | Throw e => Throw e
  end.

(** [ls(d)]: in [Deno.readDir(d || pwd())], [pwd()] is called only when [d]
    is falsy, and what it throws is thrown on before any directory is
    read. *)
Definition ls (d : option string) : Completion (list DirEntry) :=
  match truthy_string d with
  | Some path => collect path
  | None =>
      match pwd with
      | Return path => collect path
      | Throw e => Throw e
      end
  end.

(** [cat(f, e = "utf-8")]: the decoder is made before the file is read. *)
Definition cat (f : string) (e : option string) : Completion string :=
  match TextDecoder (default "utf-8" e) with
  | Return decoder =>
      match Deno_readFile f with
      | Return data => Return (decoder data)
      | Throw x => Throw x
      end
  | Throw x => Throw x
  end.

(** [isFile(f)] and [isDir(d)]: [try { await ...; return true } catch (_) { return false }]. *)
Definition isFile (f : string) : bool :=
  match Deno_readFile f with
  | Return _ => true
  | Throw _ => false
  end.

Definition isDir (d : string) : bool :=
  match ls (Some d) with
  | Return _ => true
  | Throw _ => false
  end.

End Host.

End Mod.

(** ** The shell template tag (src/shell.ts) *)
Module Shell.

Section Values.
(** The interpolated values are any JavaScript values, with their
    truthiness. For a string [str], [str + v] is [str] followed by the
    string that [v] converts to, and the conversion throws for a value that
    has none (a Symbol, an object without a usable [toString]). A string
    part is [undefined] when the template has an invalid escape there;
    [undefined_plus v] is what [undefined + v] is joined as, if [+] does not
    throw. *)
Variable Value : Type.
Variable truthy : Value → bool.
Variable ToString : Value → Completion string.
Variable undefined_plus : Value → Completion string.

(** [str + ''] . *)
Definition plus_empty (str : option string) : string :=
  match str with
  | Some s => s
  | None => "undefined"
  end.

(** [str + (values[i] || '')], for [v] the value at [i], if there is one. *)
Definition piece (str : option string) (v : option Value) : Completion string :=
  match v with
  | Some v' =>
      if truthy v' then
        match str with
        | Some s =>
            match ToString v' with
            | Return t => Return (s +:+ t)
            | Throw e => Throw e
            end
        | None => undefined_plus v'
        end
      else Return (plus_empty str)
  | None => Return (plus_empty str)
  end.

(** [strings.map((str, i) => str + (values[i] || '')).join("")]: the first
    part whose [+] throws ends the [map]. *)
Definition cmdline (strings : list (option string)) (values : list Value) : Completion string :=
  match all_of (imap (λ i str, piece str (values !! i)) strings) with
  | Return pieces => Return (String.concat "" pieces)
  | Throw e => Throw e
  end.

End Values.

End Shell.

(** ** Vocabulary for the statements *)

(** A tracked promise that [requestPermission] made. *)
Definition requested (p : Promise bool) : Prop :=
  ∃ i d, p = request_promise i d.

(** How the host settles the call behind a promise. *)
Definition outcome {A} (answer : Oracle) (p : Promise A) : Settlement :=
  answer (ticket p) (asked p).

(** What [requestPermission] and [query] complete with when the host settles
    their call as [r]. *)
Definition granted_or_thrown (r : Settlement) : Completion bool :=
  match r with
  | Settled st => Return (is_granted st)
  | Rejected reason => Throw (HostError reason)
  end.

(** [!(await Promise.all(...)).includes(false)] of promises that complete as
    [cs] says: the verdict of [settle] and [wait]. *)
Definition verdict_of (cs : list (Completion bool)) : Completion bool :=
  match all_of cs with
  | Return promises => Return (negb (includes false promises))
  | Throw e => Throw e
  end.

(** The request calls of a log. *)
Definition is_request (c : HostCall) : bool :=
  match c with
  | Request _ => true
  | Query _ => false
  end.

(** Three hosts to run the code against: one grants every call, one denies
    the calls about one descriptor and grants the rest, one rejects the
    calls about one descriptor and grants the rest. *)
Definition host_grants_all : Oracle := λ _ _, Settled granted.

Definition host_denies (d : P) : Oracle :=
  λ _ c, if bool_decide (c = Request d ∨ c = Query d) then Settled denied
         else Settled granted.


(** The scope values that an optional single or array argument stands for. *)
Definition scopes (o : option (MaybeArray string)) : list (option string) :=
  match o with
  | Some (Many l) => map Some l
  | Some (One s) => [Some s]
  | None => [None]
  end.

(** The host calls a call of the array-backed manager makes, read off the
    call alone. *)
Definition host_calls_of (c : PermissionManager.Call) : list HostCall :=
  let requests n o := map (λ v, Request (PermissionManager.desc n v)) (scopes o) in
  match c with
  | PermissionManager.call_permission n o => requests n o
  | PermissionManager.call_all => map (λ n, Request (unscoped n)) permissions
  | PermissionManager.call_env v => requests Env v
  | PermissionManager.call_read v => requests Read v
  | PermissionManager.call_write v => requests Write v
  | PermissionManager.call_net v => requests Net v
  | PermissionManager.call_run v => requests Run v
  | PermissionManager.call_ffi v => requests Ffi v
  | PermissionManager.call_hrtime => [Request (unscoped Hrtime)]
  | PermissionManager.call_can n o =>
      map (λ v, Query (PermissionManager.desc n v)) (scopes o)
  | PermissionManager.call_settle => []
  | PermissionManager.call_ensure => []
  end.

(** The promises that [requestPermission] made for the request calls of a
    log whose first call is the [k]-th the host received. *)
Fixpoint promises_of (k : nat) (log : list HostCall) : list (Promise bool) :=
  match log with
  | [] => []
  | Request d :: log' => request_promise k d :: promises_of (S k) log'
  | Query _ :: log' => promises_of (S k) log'
  end.

(** The map-backed manager files each promise under the name of the
    descriptor it was requested for, the request being in the host's log at
    the position of the promise's ticket; and it has made as many requests
    as it tracks promises. *)
Definition keyed_by_name (w : World (gmap string (Promise bool))) : Prop :=
  (∀ key p, this_permissions w !! key = Some p →
            ∃ d, key = name_str (name d) ∧ p = request_promise (ticket p) d
                 ∧ host_log w !! ticket p = Some (Request d))
  ∧ length (filter is_request (host_log w)) = size (this_permissions w).

(** A host whose answer to a call does not depend on when it is asked. *)
Definition position_independent (answer : Oracle) : Prop :=
  ∀ i j c, answer i c = answer j c.

(** * Properties *)

(** ** The shared building blocks *)

Lemma includes_false_Forall (l : list bool) :
  includes false l = false ↔ Forall (λ b, b = true) l.
Proof.
  unfold includes. induction l as [|b l IH]; simpl.
  - split; [constructor | done].
  - rewrite orb_false_iff, IH, Forall_cons. destruct b; simpl; intuition congruence.
Qed.

Lemma includes_false_Exists (l : list bool) :
  includes false l = true ↔ Exists (λ b, b = false) l.
Proof.
  unfold includes. induction l as [|b l IH]; simpl.
  - split; [done | by inversion 1].
  - rewrite orb_true_iff, IH, Exists_cons. destruct b; simpl; intuition congruence.
Qed.

Lemma includes_false_app (l k : list bool) :
  includes false (l ++ k) = includes false l || includes false k.
Proof. unfold includes. apply existsb_app. Qed.

Lemma includes_false_Permutation (l k : list bool) :
  l ≡ₚ k → includes false l = includes false k.
Proof.
  unfold includes. induction 1 as [|x l k _ IH|x y l|l k m _ IH1 _ IH2]; simpl.
  - done.
  - by rewrite IH.
  - by rewrite !orb_assoc, (orb_comm (Bool.eqb false y)).
  - by rewrite IH1.
Qed.

Lemma imap_map {A B C} (f : nat → B → C) (g : A → B) (l : list A) :
  imap f (map g l) = imap (λ i x, f i (g x)) l.
Proof.
  revert f. induction l as [|x l IH]; intros f; [done|].
  cbn [map imap]. by rewrite IH.
Qed.

Lemma forEach_ext {R A} (f g : A → M R unit) (l : list A) (w : World R) :
  (∀ x w', f x w' = g x w') → forEach f l w = forEach g l w.
Proof.
  intros Hfg. revert w. induction l as [|x l IH]; intros w; [done|].
  cbn [forEach]. unfold mbind, M_bind. rewrite Hfg. destruct (g x w). apply IH.
Qed.

Lemma await_request_promise (answer : Oracle) (i : nat) (d : P) :
  await answer (request_promise i d) = granted_or_thrown (answer i (Request d)).
Proof. reflexivity. Qed.

Lemma granted_or_thrown_true (r : Settlement) :
  granted_or_thrown r = Return true ↔ r = Settled granted.
Proof.
  destruct r as [st|reason]; cbn; [|done].
  split; [intros [= H]; f_equal; by apply bool_decide_eq_true in H|by intros [= ->]].
Qed.

Lemma granted_or_thrown_false (r : Settlement) :
  granted_or_thrown r = Return false ↔ ∃ st, r = Settled st ∧ st ≠ granted.
Proof.
  destruct r as [st|reason]; cbn.
  - split.
    + intros [= H]. exists st. split; [done|]. by apply bool_decide_eq_false in H.
    + intros (st' & [= <-] & Hst). f_equal. by apply bool_decide_eq_false.
  - split; [done|]. by intros (st & ? & _).
Qed.

Lemma all_of_Return {A} (cs : list (Completion A)) (l : list A) :
  all_of cs = Return l ↔ cs = map Return l.
Proof.
  revert l. induction cs as [|[a|e] cs IH]; intros l; cbn [all_of].
  - split; [intros [= <-]|destruct l]; done.
  - destruct (all_of cs) as [k|e] eqn:Hk.
    + split.
      * intros [= <-]. cbn. f_equal. by apply IH.
      * destruct l as [|a' l]; [done|]. intros [= <- Hcs]. f_equal. f_equal.
        apply IH in Hcs. congruence.
    + split; [done|]. destruct l as [|a' l]; [done|]. intros [= <- Hcs].
      apply IH in Hcs. done.
  - split; [done|]. by destruct l.
Qed.

Lemma all_of_Throw {A} (cs : list (Completion A)) :
  (∃ e, all_of cs = Throw e) ↔ Exists (λ c, ∃ e, c = Throw e) cs.
Proof.
  induction cs as [|[a|e] cs IH]; cbn [all_of].
  - split; [by intros [e ?]|by inversion 1].
  - rewrite Exists_cons, <- IH. destruct (all_of cs) as [k|e].
    + split; [by intros [e ?]|]. intros [[e ?]|[e ?]]; done.
    + split; [intros _; right; by eexists|intros _; by eexists].
  - split; [intros _; left; by eexists|intros _; by eexists].
Qed.

Lemma verdict_true_iff (cs : list (Completion bool)) :
  verdict_of cs = Return true ↔ Forall (λ c, c = Return true) cs.
Proof.
  unfold verdict_of. destruct (all_of cs) as [l|e] eqn:Hl.
  - apply all_of_Return in Hl as ->. split.
    + intros [= H]. apply negb_true_iff, includes_false_Forall in H.
      apply Forall_map. eapply Forall_impl; [done|]. by intros b ->.
    + intros H. f_equal. apply negb_true_iff, includes_false_Forall.
      apply Forall_map in H. eapply Forall_impl; [done|]. by intros b [= ->].
  - split; [done|]. intros H.
    assert (Hex : Exists (λ c, ∃ e, c = Throw e) cs) by (apply all_of_Throw; by eexists).
    apply Exists_exists in Hex as (c & Hc & e' & ->).
    rewrite Forall_forall in H. by apply H in Hc.
Qed.

Lemma verdict_false_iff (cs : list (Completion bool)) :
  verdict_of cs = Return false ↔
  Forall (λ c, ∃ b, c = Return b) cs ∧ Exists (λ c, c = Return false) cs.
Proof.
  unfold verdict_of. destruct (all_of cs) as [l|e] eqn:Hl.
  - apply all_of_Return in Hl as ->. split.
    + intros [= H]. apply negb_false_iff, includes_false_Exists in H. split.
      * apply Forall_map, Forall_forall. intros b _. by eexists.
      * apply Exists_map. eapply Exists_impl; [done|]. by intros b ->.
    + intros [_ H]. f_equal. apply negb_false_iff, includes_false_Exists.
      apply Exists_map in H. eapply Exists_impl; [done|]. by intros b [= ->].
  - split; [done|]. intros [H _].
    assert (Hex : Exists (λ c, ∃ e, c = Throw e) cs) by (apply all_of_Throw; by eexists).
    apply Exists_exists in Hex as (c & Hc & e' & ->).
    rewrite Forall_forall in H.
    by destruct (H _ Hc) as [b ?].
Qed.

Lemma verdict_Throw_iff (cs : list (Completion bool)) :
  (∃ e, verdict_of cs = Throw e) ↔ Exists (λ c, ∃ e, c = Throw e) cs.
Proof.
  rewrite <- all_of_Throw. unfold verdict_of. destruct (all_of cs) as [l|e].
  - split; by intros [e ?].
  - split; intros _; by eexists.
Qed.

(** When it returns, the verdict does not depend on the order of the
    promises. *)
Lemma verdict_Permutation (cs cs' : list (Completion bool)) (b : bool) :
  cs ≡ₚ cs' → verdict_of cs = Return b ↔ verdict_of cs' = Return b.
Proof.
  intros Hperm. destruct b.
  - by rewrite !verdict_true_iff, Hperm.
  - by rewrite !verdict_false_iff, Hperm.
Qed.

(** The verdict over two lists of promises is the conjunction of the two
    verdicts, when both return. *)
Lemma verdict_app (cs cs' : list (Completion bool)) (b : bool) :
  verdict_of (cs ++ cs') = Return b ↔
  ∃ b1 b2, verdict_of cs = Return b1 ∧ verdict_of cs' = Return b2 ∧ b = b1 && b2.
Proof.
  destruct b.
  - rewrite verdict_true_iff, Forall_app, <- !verdict_true_iff. split.
    + intros [H1 H2]. by exists true, true.
    + intros (b1 & b2 & H1 & H2 & Hb). symmetry in Hb.
      apply andb_true_iff in Hb as [-> ->]. done.
  - rewrite verdict_false_iff, Forall_app, Exists_app. split.
    + intros [[F1 F2] Hex].
      destruct (verdict_of cs) as [b1|e] eqn:H1.
      2:{ assert (Exists (λ c, ∃ e, c = Throw e) cs) as Hx
            by (apply verdict_Throw_iff; by eexists).
          apply Exists_exists in Hx as (c & Hc & e' & ->).
          rewrite Forall_forall in F1.
          by destruct (F1 _ Hc). }
      destruct (verdict_of cs') as [b2|e] eqn:H2.
      2:{ assert (Exists (λ c, ∃ e, c = Throw e) cs') as Hx
            by (apply verdict_Throw_iff; by eexists).
          apply Exists_exists in Hx as (c & Hc & e' & ->).
          rewrite Forall_forall in F2.
          by destruct (F2 _ Hc). }
      exists b1, b2. split_and!; [done..|].
      destruct b1, b2; try done.
      apply verdict_true_iff in H1, H2.
      destruct Hex as [Hex|Hex]; apply Exists_exists in Hex as (c & Hc & ->);
        [rewrite Forall_forall in H1; by apply H1 in Hc
        |rewrite Forall_forall in H2; by apply H2 in Hc].
    + intros (b1 & b2 & H1 & H2 & Hb).
      assert (F1 : Forall (λ c, ∃ b, c = Return b) cs).
      { destruct b1; [apply verdict_true_iff in H1|apply verdict_false_iff in H1 as [H1 _]];
          [|done]. eapply Forall_impl; [done|]. intros c ->. by eexists. }
      assert (F2 : Forall (λ c, ∃ b, c = Return b) cs').
      { destruct b2; [apply verdict_true_iff in H2|apply verdict_false_iff in H2 as [H2 _]];
          [|done]. eapply Forall_impl; [done|]. intros c ->. by eexists. }
      split; [done|]. destruct b1.
      * destruct b2; [done|]. right. by apply verdict_false_iff in H2 as [_ ?].
      * left. by apply verdict_false_iff in H1 as [_ ?].
Qed.

Lemma is_granted_true (st : PermissionState) :
  is_granted st = true ↔ st = granted.
Proof. unfold is_granted. apply bool_decide_eq_true. Qed.

(** What a verdict over awaited promises throws is the rejection of one of
    them, which is an error of the host. *)
Lemma verdict_Throw_HostError (answer : Oracle) (ps : list (Promise bool)) (e : Exn) :
  verdict_of (map (await answer) ps) = Throw e →
  ∃ reason, e = HostError reason ∧ Exists (λ p, outcome answer p = Rejected reason) ps.
Proof.
  unfold verdict_of.
  destruct (all_of (map (await answer) ps)) as [l|e'] eqn:Hall; [done|].
  intros [= ->]. revert Hall. induction ps as [|p ps IH]; [done|].
  cbn [map all_of]. destruct (await answer p) as [b|e'] eqn:Hp.
  - destruct (all_of (map (await answer) ps)) as [l|e'']; [done|].
    intros [= ->]. destruct (IH eq_refl) as (reason & -> & Hex).
    exists reason. split; [done|]. by right.
  - intros [= ->]. unfold await in Hp. unfold outcome.
    destruct (answer (ticket p) (asked p)) as [st|reason] eqn:Hr; [done|].
    injection Hp as <-. exists reason. split; [done|]. by left.
Qed.

Lemma requestPermission_run {R} (d : P) (w : World R) :
  requestPermission d w =
    (request_promise (length (host_log w)) d,
     mkWorld (host_log w ++ [Request d]) (this_permissions w)).
Proof. reflexivity. Qed.

Lemma query_run {R} (d : P) (w : World R) :
  query d w =
    (then_ (mkPromise (length (host_log w)) (Query d) id) is_granted,
     mkWorld (host_log w ++ [Query d]) (this_permissions w)).
Proof. reflexivity. Qed.

(** ** The array-backed manager *)
Section ArrayManager.
Import PermissionManager.
Variable answer : Oracle.

Lemma pushPermission_Desc_run (d : P) (w : World Registry) :
  pushPermission (Desc d) w =
    (tt, mkWorld (host_log w ++ [Request d])
                 (this_permissions w ++ [request_promise (length (host_log w)) d])).
Proof. reflexivity. Qed.

(** A loop of single accumulations: one request per element, in order. *)
Lemma forEach_pushPermission {A} (f : A → P) (l : list A) (w : World Registry) :
  forEach (λ v, pushPermission (Desc (f v))) l w =
    (tt, mkWorld (host_log w ++ map (λ v, Request (f v)) l)
                 (this_permissions w ++
                  imap (λ i v, request_promise (length (host_log w) + i) (f v)) l)).
Proof.
  revert w. induction l as [|v l IH]; intros w; cbn [forEach].
  - unfold mret, M_ret. destruct w; simpl. by rewrite !app_nil_r.
  - unfold mbind, M_bind. rewrite pushPermission_Desc_run, IH. cbn [host_log this_permissions].
    rewrite <- !app_assoc, length_app. simpl. rewrite Nat.add_0_r.
    do 4 f_equal. apply imap_ext. intros i x _. simpl. f_equal. lia.
Qed.

Lemma all_run (w : World Registry) :
  all w =
    (tt, mkWorld (host_log w ++ map (λ n, Request (unscoped n)) permissions)
                 (this_permissions w ++
                  imap (λ i n, request_promise (length (host_log w) + i) (unscoped n))
                       permissions)).
Proof. apply (forEach_pushPermission unscoped permissions w). Qed.

Lemma permission_run (n : PName) (o : option (MaybeArray string)) (w : World Registry) :
  let vs := match o with
            | Some (Many l) => map Some l
            | Some (One s) => [Some s]
            | None => [None]
            end in
  permission n o w =
    (tt, mkWorld (host_log w ++ map (λ v, Request (desc n v)) vs)
                 (this_permissions w ++
                  imap (λ i v, request_promise (length (host_log w) + i) (desc n v)) vs)).
Proof.
  destruct o as [[s|l]|]; intros vs; subst vs; unfold permission.
  - rewrite pushPermission_Desc_run. cbn [map imap]. by rewrite Nat.add_0_r.
  - rewrite (forEach_pushPermission (λ v, desc n (Some v)) l w).
    by rewrite map_map, imap_map.
  - rewrite pushPermission_Desc_run. cbn [map imap]. by rewrite Nat.add_0_r.
Qed.

Lemma can_one_run (n : PName) (o : option string) (w : World Registry) :
  can_one answer n o w =
    (granted_or_thrown (answer (length (host_log w)) (Query (desc n o))),
     mkWorld (host_log w ++ [Query (desc n o)]) (this_permissions w)).
Proof. reflexivity. Qed.

(** The batch of point queries behind [can] on an array. *)
Lemma mapM_can_one (n : PName) (l : list string) (w : World Registry) :
  mapM (λ v, can_one answer n (Some v)) l w =
    (imap (λ i v, granted_or_thrown
                    (answer (length (host_log w) + i) (Query (desc n (Some v))))) l,
     mkWorld (host_log w ++ map (λ v, Query (desc n (Some v))) l) (this_permissions w)).
Proof.
  revert w. induction l as [|v l IH]; intros w; cbn [mapM].
  - unfold mret, M_ret. destruct w; simpl. by rewrite app_nil_r.
  - unfold mbind, M_bind. rewrite can_one_run, IH. cbn [host_log this_permissions].
    unfold mret, M_ret. rewrite <- app_assoc, length_app. simpl. rewrite Nat.add_0_r.
    do 2 f_equal. apply imap_ext. intros i x _. simpl. do 2 f_equal. lia.
Qed.

Lemma can_run (n : PName) (o : option (MaybeArray string)) (w : World Registry) :
  let vs := match o with
            | Some (Many l) => map Some l
            | Some (One s) => [Some s]
            | None => [None]
            end in
  exec (can answer n o) w =
    mkWorld (host_log w ++ map (λ v, Query (desc n v)) vs) (this_permissions w).
Proof.
  destruct o as [[s|l]|]; intros vs; subst vs; unfold exec, can.
  - by rewrite can_one_run.
  - unfold mbind, M_bind. rewrite mapM_can_one. simpl. by rewrite map_map.
  - by rewrite can_one_run.
Qed.

Lemma settle_run (w : World Registry) :
  settle answer w = (verdict_of (map (await answer) (this_permissions w)), w).
Proof. reflexivity. Qed.

Lemma ensure_run (w : World Registry) :
  ensure answer w =
    (match eval (settle answer) w with
     | Return true => Return tt
     | Return false => Throw (Error "Permission denied")
     | Throw e => Throw e
     end, w).
Proof.
  unfold ensure, mbind, M_bind, eval. rewrite settle_run. cbn.
  by destruct (verdict_of _) as [[]|].
Qed.

(** What a call does to the world: it makes requests and tracks one promise
    for each, or it makes queries and tracks nothing. *)
Lemma step_cases (c : Call) (w : World Registry) :
  (∃ ds : list P,
     step answer c w =
       mkWorld (host_log w ++ map Request ds)
               (this_permissions w ++
                imap (λ i d, request_promise (length (host_log w) + i) d) ds))
  ∨ (∃ ds : list P,
       step answer c w = mkWorld (host_log w ++ map Query ds) (this_permissions w)).
Proof.
  assert (Hperm : ∀ n o, ∃ ds : list P,
    exec (permission n o) w =
      mkWorld (host_log w ++ map Request ds)
              (this_permissions w ++
               imap (λ i d, request_promise (length (host_log w) + i) d) ds)).
  { intros n o. unfold exec. rewrite permission_run. cbn [snd].
    eexists (map (desc n) _). by rewrite map_map, imap_map. }
  assert (Hsame : ∃ ds : list P,
    w = mkWorld (host_log w ++ map Query ds) (this_permissions w)).
  { exists []. destruct w; simpl. by rewrite app_nil_r. }
  unfold step, exec, call.
  destruct c; unfold mbind, M_bind, env, read, write, net, run, ffi, hrtime;
    try (left; destruct (Hperm name o) as [ds Hds] || fail);
    try (left;
         match goal with
         | |- context [permission ?n ?o w] =>
             destruct (Hperm n o) as [ds Hds]; exists ds;
             unfold exec in Hds; destruct (permission n o w); simpl in *; done
         end).
  - left. exists (map unscoped permissions). rewrite all_run. cbn [snd].
    by rewrite map_map, imap_map.
  - right. pose proof (can_run n o w) as Hcan. cbv zeta in Hcan. unfold exec in Hcan.
    eexists (map (desc n) _). destruct (can answer n o w). simpl in *.
    rewrite Hcan. by rewrite map_map.
  - right. rewrite settle_run. simpl. apply Hsame.
  - right. rewrite ensure_run. simpl. apply Hsame.
Qed.

Lemma tracked_request_promises (k : nat) (ds : list P) :
  map asked (imap (λ i d, request_promise (k + i) d) ds) = map Request ds.
Proof.
  revert k. induction ds as [|d ds IH]; intros k; [done|].
  cbn [imap map]. f_equal. rewrite <- (IH (S k)). f_equal.
  apply imap_ext. intros i x _. simpl. f_equal. lia.
Qed.

Lemma step_prefix (c : Call) (w : World Registry) :
  this_permissions w `prefix_of` this_permissions (step answer c w).
Proof.
  destruct (step_cases c w) as [[ds ->]|[ds ->]]; simpl.
  - by apply prefix_app_r.
  - done.
Qed.

Lemma steps_prefix (cs : list Call) (w : World Registry) :
  this_permissions w `prefix_of` this_permissions (steps answer cs w).
Proof.
  revert w. induction cs as [|c cs IH]; intros w; simpl; [done|].
  etrans; [apply (step_prefix c)|apply IH].
Qed.

Lemma step_requested (c : Call) (w : World Registry) :
  Forall requested (this_permissions w) →
  Forall requested (this_permissions (step answer c w)).
Proof.
  intros Hw. destruct (step_cases c w) as [[ds ->]|[ds ->]]; simpl; [|done].
  apply Forall_app. split; [done|].
  apply Forall_forall. intros p [i [d [-> _]]]%elem_of_lookup_imap. by eexists _, _.
Qed.

Lemma steps_requested (cs : list Call) (w : World Registry) :
  Forall requested (this_permissions w) →
  Forall requested (this_permissions (steps answer cs w)).
Proof.
  revert w. induction cs as [|c cs IH]; intros w Hw; simpl; [done|].
  by apply IH, step_requested.
Qed.

(** In a world the calls lead to, the tracked promises are the request calls
    of the host's log, one for one and in order. *)
Lemma step_tracked (c : Call) (w : World Registry) :
  tracked w = filter is_request (host_log w) →
  tracked (step answer c w) = filter is_request (host_log (step answer c w)).
Proof.
  unfold tracked. intros Hw.
  destruct (step_cases c w) as [[ds ->]|[ds ->]]; simpl;
    rewrite filter_app, <- Hw.
  - rewrite map_app. f_equal.
    rewrite tracked_request_promises.
    induction ds as [|d ds IH]; [done|]. simpl. rewrite filter_cons. simpl. by f_equal.
  - assert (filter is_request (map Query ds) = []) as ->; [|by rewrite app_nil_r].
    induction ds as [|d ds IH]; [done|]. simpl. by rewrite filter_cons.
Qed.

Lemma steps_tracked (cs : list Call) (w : World Registry) :
  tracked w = filter is_request (host_log w) →
  tracked (steps answer cs w) = filter is_request (host_log (steps answer cs w)).
Proof.
  revert w. induction cs as [|c cs IH]; intros w Hw; simpl; [done|].
  by apply IH, step_tracked.
Qed.

Lemma settle_true_iff (w : World Registry) :
  eval (settle answer) w = Return true ↔
  Forall (λ p, await answer p = Return true) (this_permissions w).
Proof.
  unfold eval. rewrite settle_run. cbn [fst].
  by rewrite verdict_true_iff, Forall_map.
Qed.

Lemma settle_false_iff (w : World Registry) :
  eval (settle answer) w = Return false ↔
  Forall (λ p, ∃ b, await answer p = Return b) (this_permissions w)
  ∧ Exists (λ p, await answer p = Return false) (this_permissions w).
Proof.
  unfold eval. rewrite settle_run. cbn [fst].
  by rewrite verdict_false_iff, Forall_map, Exists_map.
Qed.

Lemma settle_Throw_iff (w : World Registry) :
  (∃ e, eval (settle answer) w = Throw e) ↔
  Exists (λ p, ∃ e, await answer p = Throw e) (this_permissions w).
Proof.
  unfold eval. rewrite settle_run. cbn [fst].
  by rewrite verdict_Throw_iff, Exists_map.
Qed.

(** What [settle] throws is the rejection of a tracked promise, which is
    an error of the host. *)
Lemma settle_Throw_HostError (w : World Registry) (e : Exn) :
  eval (settle answer) w = Throw e →
  ∃ reason, e = HostError reason
            ∧ Exists (λ p, outcome answer p = Rejected reason) (this_permissions w).
Proof. unfold eval. rewrite settle_run. cbn [fst]. apply verdict_Throw_HostError. Qed.

(** A promise that [requestPermission] made completes as the host settles
    its request. *)
Lemma requested_await (p : Promise bool) :
  requested p →
  (await answer p = Return true ↔ outcome answer p = Settled granted)
  ∧ ((∃ b, await answer p = Return b) ↔ ∃ st, outcome answer p = Settled st)
  ∧ (await answer p = Return false ↔
     ∃ st, outcome answer p = Settled st ∧ st ≠ granted).
Proof.
  intros (i & d & ->). rewrite await_request_promise.
  unfold outcome. cbn [ticket asked request_promise then_].
  split_and!.
  - apply granted_or_thrown_true.
  - destruct (answer i (Request d)) as [st|reason]; cbn.
    + split; intros _; by eexists.
    + split; by intros [? ?].
  - apply granted_or_thrown_false.
Qed.




(** C8. [requestPermission] and [query] turn the state the host settles the
    call with into a boolean that is [true] for [granted] and [false] for
    both [denied] and [prompt]; a rejection of the host they throw on. *)
Theorem C8_granted_is_the_only_true_state (R : Type) (d : P) (w : World R) :
  await answer (eval (requestPermission d) w) =
    match answer (length (host_log w)) (Request d) with
    | Settled granted => Return true
    | Settled denied => Return false
    | Settled prompt => Return false
    | Rejected reason => Throw (HostError reason)
    end
  ∧ await answer (eval (query d) w) =
    match answer (length (host_log w)) (Query d) with
    | Settled granted => Return true
    | Settled denied => Return false
    | Settled prompt => Return false
    | Rejected reason => Throw (HostError reason)
    end
  ∧ is_granted granted = true ∧ is_granted denied = false ∧ is_granted prompt = false.
Proof.
  unfold eval. rewrite requestPermission_run, query_run. cbn [fst].
  rewrite await_request_promise. unfold await, then_. cbn.
  split_and!; try done.
  - by destruct (answer _ _) as [[]|].
  - by destruct (answer _ _) as [[]|].
Qed.

(** C2. [settle()] returns [true] exactly when every tracked promise settled
    to [true]; in a world the public calls lead to, that is exactly when the
    host granted every tracked request. A manager that tracks nothing
    settles to [true], and one that accumulated [A] then [B] settles to the
    conjunction of the two grants (and throws the first rejection when the
    host rejects a request). *)
Theorem C2_settle_iff_every_tracked_request_granted :
  (∀ w, eval (settle answer) w = Return true ↔
        Forall (λ p, await answer p = Return true) (this_permissions w))
  ∧ (∀ cs, let w := steps answer cs fresh in
           eval (settle answer) w = Return true ↔
           Forall (λ p, outcome answer p = Settled granted) (this_permissions w))
  ∧ eval (settle answer) fresh = Return true
  ∧ (∀ A B, eval (settle answer)
              (exec (pushPermission (Desc A) ;; pushPermission (Desc B)) fresh) =
            match answer 0 (Request A), answer 1 (Request B) with
            | Settled a, Settled b => Return (is_granted a && is_granted b)
            | Rejected reason, _ => Throw (HostError reason)
            | Settled _, Rejected reason => Throw (HostError reason)
            end).
Proof.
  split_and!.
  - apply settle_true_iff.
  - intros cs w. rewrite settle_true_iff.
    assert (Hreq : Forall requested (this_permissions w)).
    { apply steps_requested. constructor. }
    revert Hreq. generalize (this_permissions w). intros ps Hreq.
    induction Hreq as [|p ps Hp _ IH]; [done|].
    rewrite !Forall_cons, IH. by rewrite (proj1 (requested_await p Hp)).
  - done.
  - intros A B. unfold eval, exec, mbind, M_bind.
    rewrite !pushPermission_Desc_run, settle_run. cbn.
    unfold verdict_of, await. cbn.
    destruct (answer 0 (Request A)) as [a|ra], (answer 1 (Request B)) as [b|rb]; cbn;
      try done.
    by destruct (is_granted a), (is_granted b).
Qed.


Lemma step_can (n : PName) (o : option (MaybeArray string)) (w : World Registry) :
  step answer (call_can n o) w = exec (can answer n o) w.
Proof.
  unfold step, exec, call, mbind, M_bind. by destruct (can answer n o w).
Qed.

Lemma can_this_permissions (n : PName) (o : option (MaybeArray string)) (w : World Registry) :
  this_permissions (exec (can answer n o) w) = this_permissions w.
Proof. pose proof (can_run n o w) as H. cbv zeta in H. by rewrite H. Qed.

(** The value of [can] does not depend on what the manager tracks. *)
Lemma can_ignores_registry (n : PName) (o : option (MaybeArray string))
    (log : list HostCall) (r1 r2 : Registry) :
  eval (can answer n o) (mkWorld log r1) = eval (can answer n o) (mkWorld log r2).
Proof.
  unfold eval, can. destruct o as [[s|l]|]; rewrite ?can_one_run; try done.
  unfold mbind, M_bind. by rewrite !mapM_can_one.
Qed.

Lemma steps_can_this_permissions
    (qs : list (PName * option (MaybeArray string))) (w : World Registry) :
  this_permissions (steps answer (map (λ q, call_can q.1 q.2) qs) w) = this_permissions w.
Proof.
  revert w. induction qs as [|[n o] qs IH]; intros w; simpl; [done|].
  by rewrite IH, step_can, can_this_permissions.
Qed.

(** C6. [can(kind, scope)] leaves the tracked promises as they are and its
    value does not depend on them; after any sequence of [can] calls on a
    fresh manager nothing is tracked and [settle()] is [true]. *)
Theorem C6_can_leaves_the_tracked_requests_unchanged :
  (∀ n o w, this_permissions (exec (can answer n o) w) = this_permissions w)
  ∧ (∀ n o log r1 r2,
       eval (can answer n o) (mkWorld log r1) = eval (can answer n o) (mkWorld log r2))
  ∧ (∀ qs : list (PName * option (MaybeArray string)),
       let w := steps answer (map (λ q, call_can q.1 q.2) qs) fresh in
       this_permissions w = [] ∧ eval (settle answer) w = Return true).
Proof.
  split_and!.
  - apply can_this_permissions.
  - apply can_ignores_registry.
  - intros qs w.
    assert (Hw : this_permissions w = []) by apply steps_can_this_permissions.
    split; [done|]. apply settle_true_iff. rewrite Hw. constructor.
Qed.

(** C7. No call removes or replaces a tracked promise: the tracked array
    before a call, or before a sequence of calls, is a prefix of the tracked
    array after it; and [getInstance()] returns the manager that exists, as
    it is. *)
Theorem C7_tracked_requests_only_grow :
  (∀ c w, this_permissions w `prefix_of` this_permissions (step answer c w))
  ∧ (∀ cs w, this_permissions w `prefix_of` this_permissions (steps answer cs w))
  ∧ (∀ cs w i p, this_permissions w !! i = Some p →
                 this_permissions (steps answer cs w) !! i = Some p)
  ∧ (∀ this, getInstance (Some this) = (this, Some this)).
Proof.
  split_and!.
  - apply step_prefix.
  - apply steps_prefix.
  - intros cs w i p Hp. by eapply prefix_lookup_Some, steps_prefix.
  - done.
Qed.

(** What [can] on an array computes: it returns [true] exactly when the
    host settled every point query and did not grant one of them, and
    [false] exactly when the host granted every one. *)
Lemma can_array_true_iff (n : PName) (l : list string) (w : World Registry) :
  (eval (can answer n (Some (Many l))) w = Return true ↔
   (∀ i v, l !! i = Some v →
           ∃ st, answer (length (host_log w) + i) (Query (desc n (Some v))) = Settled st)
   ∧ ∃ i v st, l !! i = Some v ∧
               answer (length (host_log w) + i) (Query (desc n (Some v))) = Settled st
               ∧ st ≠ granted)
  ∧ (eval (can answer n (Some (Many l))) w = Return false ↔
     ∀ i v, l !! i = Some v →
            answer (length (host_log w) + i) (Query (desc n (Some v))) = Settled granted).
Proof.
  unfold eval, can, mbind, M_bind. rewrite mapM_can_one. cbn [fst mret M_ret].
  set (cs := imap _ l).
  assert (Hcs : ∀ c, c ∈ cs ↔ ∃ i v, l !! i = Some v ∧
      c = granted_or_thrown (answer (length (host_log w) + i) (Query (desc n (Some v))))).
  { intros c. subst cs. rewrite elem_of_lookup_imap. split.
    - intros (i & v & -> & Hv). by exists i, v.
    - intros (i & v & Hv & ->). by exists i, v. }
  assert (Hneg : ∀ b, match all_of cs with
                      | Return answers => Return (includes false answers)
                      | Throw e => Throw e
                      end = Return b ↔ verdict_of cs = Return (negb b)).
  { intros b. unfold verdict_of. destruct (all_of cs) as [bs|e]; [|done].
    split; intros [= H]; f_equal; destruct (includes false bs), b; done. }
  rewrite !Hneg. cbn [negb]. rewrite verdict_false_iff, verdict_true_iff.
  rewrite !Forall_forall, Exists_exists. split_and!; split.
  - intros [Hall (c & Hc & ->)]. split.
    + intros i v Hv.
      destruct (Hall (granted_or_thrown
                        (answer (length (host_log w) + i) (Query (desc n (Some v))))))
        as [b Hb]; [apply Hcs; by exists i, v|].
      destruct (answer _ _) as [st|reason]; [by eexists|done].
    + apply Hcs in Hc as (i & v & Hv & Hc). symmetry in Hc.
      apply granted_or_thrown_false in Hc as (st & Hst & Hng). by exists i, v, st.
  - intros [Hall (i & v & st & Hv & Hst & Hng)]. split.
    + intros c (j & u & Hu & ->)%Hcs. destruct (Hall j u Hu) as [st' ->]. by eexists.
    + exists (Return false). split; [|done]. apply Hcs. exists i, v. split; [done|].
      symmetry. apply granted_or_thrown_false. by exists st.
  - intros Hall i v Hv. apply granted_or_thrown_true, Hall, Hcs. by exists i, v.
  - intros Hall c (i & v & Hv & ->)%Hcs. by apply granted_or_thrown_true, Hall.
Qed.

End ArrayManager.

(** [permission(name, o)] in terms of the descriptors it accumulates. *)
Lemma permission_descs (n : PName) (o : option (MaybeArray string))
    (w : World PermissionManager.Registry) :
  let ds := match o with
            | Some (Many l) => map (λ v, PermissionManager.desc n (Some v)) l
            | Some (One s) => [PermissionManager.desc n (Some s)]
            | None => [PermissionManager.desc n None]
            end in
  exec (PermissionManager.permission n o) w =
    mkWorld (host_log w ++ map Request ds)
            (this_permissions w ++
             imap (λ i d, request_promise (length (host_log w) + i) d) ds).
Proof.
  unfold exec. rewrite permission_run. cbn [snd].
  destruct o as [[s|l]|]; cbn [map imap]; try done.
  by rewrite !map_map, !imap_map.
Qed.

(** C3. [can] on an array makes one point query per scope value, in order,
    and then returns [includes(false)] of the answers: it returns [true]
    exactly when the host settled every query and did not grant one of
    them, and [false] exactly when the host granted every query. On
    ["read"] with [["a"]] it is [false] when the host grants the query and
    [true] when the host denies it, the opposite of the single-value call. *)
Theorem C3_can_on_an_array_reports_a_denial
    (answer : Oracle) (n : PName) (l : list string) (w : World PermissionManager.Registry) :
  host_log (exec (PermissionManager.can answer n (Some (Many l))) w) =
    host_log w ++ map (λ v, Query (PermissionManager.desc n (Some v))) l
  ∧ (eval (PermissionManager.can answer n (Some (Many l))) w = Return true ↔
     (∀ i v, l !! i = Some v →
             ∃ st, answer (length (host_log w) + i)
                          (Query (PermissionManager.desc n (Some v))) = Settled st)
     ∧ ∃ i v st, l !! i = Some v ∧
                 answer (length (host_log w) + i)
                        (Query (PermissionManager.desc n (Some v))) = Settled st
                 ∧ st ≠ granted)
  ∧ (eval (PermissionManager.can answer n (Some (Many l))) w = Return false ↔
     ∀ i v, l !! i = Some v →
            answer (length (host_log w) + i)
                   (Query (PermissionManager.desc n (Some v))) = Settled granted)
  ∧ eval (PermissionManager.can host_grants_all Read (Some (Many ["a"])))
         PermissionManager.fresh = Return false
  ∧ eval (PermissionManager.can host_grants_all Read (Some (One "a")))
         PermissionManager.fresh = Return true
  ∧ eval (PermissionManager.can (host_denies (Permission.read (Some "a"))) Read
            (Some (Many ["a"])))
         PermissionManager.fresh = Return true
  ∧ eval (PermissionManager.can (host_denies (Permission.read (Some "a"))) Read
            (Some (One "a")))
         PermissionManager.fresh = Return false.
Proof.
  split_and!; try reflexivity.
  - pose proof (can_run answer n (Some (Many l)) w) as Hrun. cbv zeta in Hrun.
    rewrite Hrun. cbn [host_log]. by rewrite map_map.
  - apply can_array_true_iff.
  - apply can_array_true_iff.
Qed.


(** C5 (as the code has it). [permission(name, list)] makes one host request
    per element of the list, in input order, each for the descriptor the
    single-value rule [desc(name, v)] builds, and tracks one promise for
    each; it is the same as calling [permission(name, v)] for each element
    in turn. Nothing is deduplicated: a later [permission(name, s)] makes a
    further request and tracks a further promise. *)
Theorem C5_permission_on_an_array_tracks_one_request_per_element
    (name : PName) (l : list string) (w : World PermissionManager.Registry) :
  let w' := exec (PermissionManager.permission name (Some (Many l))) w in
  host_log w' = host_log w ++ map (λ v, Request (PermissionManager.desc name (Some v))) l
  ∧ PermissionManager.tracked w' =
      PermissionManager.tracked w ++ map (λ v, Request (PermissionManager.desc name (Some v))) l
  ∧ w' = exec (forEach (λ v, PermissionManager.permission name (Some (One v))) l) w
  ∧ (∀ s, PermissionManager.tracked (exec (PermissionManager.permission name (Some (One s))) w') =
          PermissionManager.tracked w' ++ [Request (PermissionManager.desc name (Some s))])
  ∧ PermissionManager.tracked
      (exec (PermissionManager.read (Some (Many ["a"; "b"; "c"])) ;;
             PermissionManager.read (Some (One "a")))
            PermissionManager.fresh) =
    [Request (Permission.read (Some "a")); Request (Permission.read (Some "b"));
     Request (Permission.read (Some "c")); Request (Permission.read (Some "a"))].
Proof.
  intros w'. subst w'. rewrite permission_descs. cbv zeta.
  unfold PermissionManager.tracked. cbn [host_log this_permissions].
  split_and!.
  - by rewrite map_map.
  - by rewrite map_app, tracked_request_promises, map_map.
  - unfold exec.
    change (forEach (λ v, PermissionManager.permission name (Some (One v))) l w)
      with (forEach (λ v, PermissionManager.pushPermission
                            (Desc (PermissionManager.desc name (Some v)))) l w).
    by rewrite (forEach_pushPermission (λ v, PermissionManager.desc name (Some v)) l w),
      imap_map, map_map.
  - intros s. rewrite permission_descs. cbn [this_permissions imap map].
    by rewrite map_app.
  - reflexivity.
Qed.

(** C5, the counterexample: after [read(["a","b","c"])] a later [read("a")]
    is not deduplicated; the host has been asked twice for [read:a] and two
    promises for it are tracked. *)
Lemma C5_counterexample_later_read_is_requested_again :
  let w := exec (PermissionManager.read (Some (Many ["a"; "b"; "c"])) ;;
                 PermissionManager.read (Some (One "a")))
                PermissionManager.fresh in
  PermissionManager.requests_for (Permission.read (Some "a")) w = 2
  ∧ PermissionManager.tracked_for (Permission.read (Some "a")) w = 2.
Proof. cbv zeta. split; reflexivity. Qed.

(** ** The map-backed manager *)

Lemma name_str_inj (n m : PName) : name_str n = name_str m → n = m.
Proof. by destruct n, m. Qed.

Section MapManager.
Import MapPermissionManager.
Variable answer : Oracle.

Lemma map_pushPermission_Desc_run (d : P) (w : World Registry) :
  pushPermission (Desc d) w =
    (tt, match this_permissions w !! name_str (name d) with
         | Some _ => w
         | None =>
             mkWorld (host_log w ++ [Request d])
                     (<[name_str (name d) := request_promise (length (host_log w)) d]>
                        (this_permissions w))
         end).
Proof.
  unfold pushPermission, mbind, M_bind, has.
  destruct (this_permissions w !! name_str (name d)) as [p|] eqn:Hk.
  - rewrite bool_decide_eq_true_2; [done|by eexists].
  - rewrite bool_decide_eq_false_2; [done|]. by intros [? ?].
Qed.

(** Accumulating under a name that is tracked does nothing, whatever the
    scope of the descriptor. *)
Lemma map_pushPermission_tracked (d : P) (w : World Registry) :
  is_Some (this_permissions w !! name_str (name d)) →
  pushPermission (Desc d) w = (tt, w).
Proof. intros [p Hp]. by rewrite map_pushPermission_Desc_run, Hp. Qed.

Lemma map_pushPermission_tracks (d : P) (w : World Registry) :
  is_Some (this_permissions (exec (pushPermission (Desc d)) w) !! name_str (name d)).
Proof.
  unfold exec. rewrite map_pushPermission_Desc_run. cbn [snd].
  destruct (this_permissions w !! name_str (name d)) as [p|] eqn:Hk.
  - by eexists.
  - cbn [this_permissions]. rewrite lookup_insert_eq. by eexists.
Qed.

(** Any number of repetitions is one accumulation. *)
Lemma map_pushPermission_times_S (n : nat) (d : P) (w : World Registry) :
  pushPermission_times (S n) (Desc d) w = pushPermission (Desc d) w.
Proof.
  induction n as [|n IH].
  - cbn [pushPermission_times]. unfold mbind, M_bind, mret, M_ret.
    by destruct (pushPermission (Desc d) w) as [[] w'].
  - change (pushPermission_times (S (S n)) (Desc d) w)
      with ((pushPermission (Desc d) ;; pushPermission_times (S n) (Desc d)) w).
    unfold mbind, M_bind.
    pose proof (map_pushPermission_tracks d w) as Hk. unfold exec in Hk.
    destruct (pushPermission (Desc d) w) as [[] w'] eqn:Hw. cbn [snd] in Hk.
    change (pushPermission_times (S n) (Desc d) w')
      with ((pushPermission (Desc d) ;; pushPermission_times n (Desc d)) w').
    unfold mbind, M_bind. rewrite (map_pushPermission_tracked d w' Hk).
    clear IH Hw. induction n as [|n IH]; [done|].
    cbn [pushPermission_times]. unfold mbind, M_bind.
    by rewrite (map_pushPermission_tracked d w' Hk).
Qed.

Lemma values_Permutation (m : Registry) : values m ≡ₚ map snd (map_to_list m).
Proof. unfold values. apply merge_sort_Permutation. Qed.

Lemma values_insert (key : string) (p : Promise bool) (m : Registry) :
  m !! key = None → values (<[key := p]> m) ≡ₚ p :: values m.
Proof.
  intros Hk. rewrite !values_Permutation.
  change (p :: map snd (map_to_list m)) with (map snd ((key, p) :: map_to_list m)).
  apply Permutation_map. by apply map_to_list_insert.
Qed.

Lemma wait_run (w : World Registry) :
  wait answer w = (verdict_of (map (await answer) (values (this_permissions w))), w).
Proof. reflexivity. Qed.

Lemma verdict_singleton (c : Completion bool) : verdict_of [c] = c.
Proof. by destruct c as [[]|]. Qed.

(** [wait()] after a first accumulation under a name: when it returns, the
    verdict before and the grant of the one request made; it returns
    exactly when [wait()] before returns and the host settles the
    request. *)
Lemma wait_after_pushPermission (d : P) (w : World Registry) (b : bool) :
  this_permissions w !! name_str (name d) = None →
  eval (wait answer) (exec (pushPermission (Desc d)) w) = Return b ↔
  ∃ b1 st, eval (wait answer) w = Return b1
           ∧ answer (length (host_log w)) (Request d) = Settled st
           ∧ b = b1 && is_granted st.
Proof.
  intros Hk. unfold eval, exec. rewrite map_pushPermission_Desc_run, Hk.
  cbn [snd]. rewrite !wait_run. cbn [fst this_permissions].
  rewrite (verdict_Permutation _
             (map (await answer) (values (this_permissions w)) ++
              [await answer (request_promise (length (host_log w)) d)])).
  2:{ rewrite <- Permutation_cons_append.
      etrans; [apply Permutation_map, values_insert; done|done]. }
  rewrite verdict_app, verdict_singleton, await_request_promise. split.
  - intros (b1 & b2 & H1 & H2 & ->).
    destruct (answer _ _) as [st|reason]; [|done]. injection H2 as <-. by exists b1, st.
  - intros (b1 & st & H1 & -> & ->). by exists b1, (is_granted st).
Qed.

(** One round of the loop of [pushPermission("*")] is an accumulation of the
    unscoped descriptor. *)
Lemma map_all_body (n : PName) (w : World Registry) :
  (tracked ← has (name_str n);
   if tracked : bool then (mret tt : M Registry unit)
   else p ← requestPermission (unscoped n); set (name_str n) p) w =
  pushPermission (Desc (unscoped n)) w.
Proof.
  rewrite map_pushPermission_Desc_run. unfold mbind, M_bind, has. cbn [name unscoped].
  destruct (this_permissions w !! name_str n) as [p|] eqn:Hk.
  - rewrite bool_decide_eq_true_2; [done|by eexists].
  - rewrite bool_decide_eq_false_2; [done|]. by intros [? ?].
Qed.

Lemma filter_ext_elem {A} (P1 P2 : A → Prop)
    `{!∀ x, Decision (P1 x), !∀ x, Decision (P2 x)} (l : list A) :
  (∀ x, x ∈ l → P1 x ↔ P2 x) → filter P1 l = filter P2 l.
Proof.
  induction l as [|a l IH]; intros Hext; [done|].
  rewrite !filter_cons, IH.
  - destruct (decide (P1 a)) as [H1|H1], (decide (P2 a)) as [H2|H2]; try done.
    + destruct H2. apply Hext; [left|done].
    + destruct H1. apply Hext; [left|done].
  - intros x Hx. apply Hext. by right.
Qed.

(** The loop over distinct names: the names not tracked before are requested,
    in order; afterwards every name of the loop is tracked and the entries
    that were there are kept. *)
Lemma map_forEach_names (ns : list PName) (w : World Registry) :
  NoDup ns →
  let w' := exec (forEach (λ n, pushPermission (Desc (unscoped n))) ns) w in
  host_log w' =
    host_log w ++
    map (λ n, Request (unscoped n))
        (filter (λ n, this_permissions w !! name_str n = None) ns)
  ∧ (∀ n, n ∈ ns → is_Some (this_permissions w' !! name_str n))
  ∧ (∀ key p, this_permissions w !! key = Some p → this_permissions w' !! key = Some p).
Proof.
  intros Hnd. revert w. induction Hnd as [|n ns Hn Hnd IH]; intros w w'; subst w'.
  - unfold exec. cbn. split_and!; [by rewrite app_nil_r| |done].
    intros n Hn. by apply elem_of_nil in Hn.
  - unfold exec. cbn [forEach]. unfold mbind, M_bind.
    rewrite map_pushPermission_Desc_run. cbn [name unscoped].
    destruct (this_permissions w !! name_str n) as [p|] eqn:Hk.
    + destruct (IH w) as (Hlog & Htr & Hkeep). unfold exec in Hlog, Htr, Hkeep.
      split_and!.
      * rewrite Hlog, filter_cons_False; [done|]. by rewrite Hk.
      * intros m [->|Hm]%elem_of_cons; [|by apply Htr].
        eexists. by apply Hkeep.
      * done.
    + set (w1 := mkWorld _ _).
      destruct (IH w1) as (Hlog & Htr & Hkeep). unfold exec in Hlog, Htr, Hkeep.
      split_and!.
      * rewrite Hlog. subst w1. cbn [host_log this_permissions].
        rewrite filter_cons_True by done. cbn [map]. rewrite <- app_assoc.
        do 3 f_equal. apply filter_ext_elem. intros m Hm.
        rewrite lookup_insert_ne; [done|].
        intros ->%name_str_inj. done.
      * intros m [->|Hm]%elem_of_cons; [|by apply Htr].
        eexists. apply Hkeep. subst w1. cbn. by rewrite lookup_insert_eq.
      * intros key q Hq. apply Hkeep. subst w1. cbn.
        rewrite lookup_insert_ne; [done|]. intros <-. congruence.
Qed.

Lemma map_all_forEach (w : World Registry) :
  all w = forEach (λ n, pushPermission (Desc (unscoped n))) permissions w.
Proof.
  unfold all. cbn [pushPermission]. apply forEach_ext. intros n w'. apply map_all_body.
Qed.

End MapManager.

Lemma permissions_NoDup : NoDup permissions.
Proof. apply (bool_decide_unpack _). by vm_compute. Qed.

Lemma permissions_complete (n : PName) : n ∈ permissions.
Proof. unfold permissions. destruct n; set_solver. Qed.

(** C10. In the inline [desc] of the earlier snapshot the case expression
    ["read" || "write" || "ffi"] is ["read"], so ["write"] and ["ffi"] fall
    to the default case: a scope given for them is dropped, and
    [can("write", path)] and [can("ffi", path)] query the unscoped
    descriptor [{ name }]. For ["read"] the scope is kept. *)
Theorem C10_inline_desc_drops_the_scope_of_write_and_ffi
    (answer : Oracle) (p : string) (w : World MapPermissionManager.Registry) :
  MapPermissionManager.js_or (MapPermissionManager.js_or "read" "write") "ffi" = "read"
  ∧ MapPermissionManager.desc Write (Some p) = unscoped Write
  ∧ MapPermissionManager.desc Ffi (Some p) = unscoped Ffi
  ∧ scope (MapPermissionManager.desc Write (Some p)) = None
  ∧ scope (MapPermissionManager.desc Ffi (Some p)) = None
  ∧ scope (MapPermissionManager.desc Read (Some p)) = Some p
  ∧ host_log (exec (MapPermissionManager.can answer Write (Some p)) w) =
      host_log w ++ [Query (unscoped Write)]
  ∧ host_log (exec (MapPermissionManager.can answer Ffi (Some p)) w) =
      host_log w ++ [Query (unscoped Ffi)]
  ∧ host_log (exec (MapPermissionManager.can answer Read (Some p)) w) =
      host_log w ++ [Query (Permission.read (Some p))].
Proof. split_and!; reflexivity. Qed.

(** ** Repeated accumulation *)

Lemma map_replicate {A B} (f : A → B) (n : nat) (x : A) :
  map f (replicate n x) = replicate n (f x).
Proof. induction n as [|n IH]; [done|]. cbn. by rewrite IH. Qed.

Lemma pushPermission_times_forEach (n : nat) (d : P) (w : World PermissionManager.Registry) :
  PermissionManager.pushPermission_times n (Desc d) w =
    forEach (λ d', PermissionManager.pushPermission (Desc d')) (replicate n d) w.
Proof.
  revert w. induction n as [|n IH]; intros w; [done|].
  cbn [PermissionManager.pushPermission_times replicate forEach].
  unfold mbind, M_bind. destruct (PermissionManager.pushPermission (Desc d) w). apply IH.
Qed.

Lemma pushPermission_times_run (n : nat) (d : P) (w : World PermissionManager.Registry) :
  exec (PermissionManager.pushPermission_times n (Desc d)) w =
    mkWorld (host_log w ++ replicate n (Request d))
            (this_permissions w ++
             imap (λ i d', request_promise (length (host_log w) + i) d') (replicate n d)).
Proof.
  unfold exec. rewrite pushPermission_times_forEach.
  rewrite (forEach_pushPermission (λ d', d') (replicate n d) w). cbn [snd].
  by rewrite map_replicate.
Qed.

Lemma filter_replicate_eq {A} `{EqDecision A} (n : nat) (x : A) :
  filter (λ y, y = x) (replicate n x) = replicate n x.
Proof.
  induction n as [|n IH]; [done|]. cbn [replicate].
  by rewrite filter_cons_True, IH.
Qed.

(** C1 (as the code has it). In the array-backed manager nothing is
    deduplicated: [N] accumulations of a descriptor [D] make [N] host
    requests for [D] and track [N] promises, and [settle()] afterwards
    returns [true] exactly when it did before and the host granted each of
    the [N] requests. In the map-backed manager the key is the name of [D] alone:
    any number [N + 1] of accumulations is one accumulation, which does
    nothing when a promise is tracked under the name of [D] and otherwise
    makes one host request for [D] and tracks its promise under that name;
    [wait()] afterwards returns the verdict before and the grant of that one
    request, when [wait()] before returns and the host settles the
    request. *)
Theorem C1_repeated_accumulation (answer : Oracle) (D : P) (N : nat) :
  (∀ w : World PermissionManager.Registry,
     let w' := exec (PermissionManager.pushPermission_times N (Desc D)) w in
     host_log w' = host_log w ++ replicate N (Request D)
     ∧ PermissionManager.tracked w' = PermissionManager.tracked w ++ replicate N (Request D)
     ∧ PermissionManager.requests_for D w' = PermissionManager.requests_for D w + N
     ∧ PermissionManager.tracked_for D w' = PermissionManager.tracked_for D w + N
     ∧ (eval (PermissionManager.settle answer) w' = Return true ↔
        eval (PermissionManager.settle answer) w = Return true
        ∧ ∀ i, i < N → answer (length (host_log w) + i) (Request D) = Settled granted))
  ∧ (∀ w : World MapPermissionManager.Registry,
       let once := exec (MapPermissionManager.pushPermission (Desc D)) w in
       exec (MapPermissionManager.pushPermission_times (S N) (Desc D)) w = once
       ∧ once =
           match this_permissions w !! name_str (name D) with
           | Some _ => w
           | None =>
               mkWorld (host_log w ++ [Request D])
                       (<[name_str (name D) := request_promise (length (host_log w)) D]>
                          (this_permissions w))
           end
       ∧ MapPermissionManager.requests_for D once =
           MapPermissionManager.requests_for D w +
           match this_permissions w !! name_str (name D) with
           | Some _ => 0
           | None => 1
           end
       ∧ (this_permissions w !! name_str (name D) = None →
          ∀ b, eval (MapPermissionManager.wait answer) once = Return b ↔
               ∃ b1 st, eval (MapPermissionManager.wait answer) w = Return b1
                        ∧ answer (length (host_log w)) (Request D) = Settled st
                        ∧ b = b1 && is_granted st)).
Proof.
  split.
  - intros w w'. subst w'. rewrite pushPermission_times_run.
    unfold PermissionManager.tracked, PermissionManager.requests_for,
      PermissionManager.tracked_for.
    cbn [host_log this_permissions].
    assert (Hasked : map asked (imap (λ i d', request_promise (length (host_log w) + i) d')
                                     (replicate N D)) = replicate N (Request D)).
    { by rewrite tracked_request_promises, map_replicate. }
    split_and!.
    + done.
    + by rewrite map_app, Hasked.
    + by rewrite filter_app, length_app, filter_replicate_eq, length_replicate.
    + rewrite filter_app, length_app. f_equal.
      generalize (length (host_log w)). clear. intros k. revert k.
      induction N as [|N IH]; intros k; [done|].
      cbn [replicate imap]. rewrite filter_cons_True by done. cbn [length]. f_equal.
      etrans; [|apply (IH (S k))]. do 2 f_equal. apply imap_ext. intros i x _. simpl.
      unfold request_promise. do 2 f_equal. lia.
    + rewrite !settle_true_iff. cbn [this_permissions]. rewrite Forall_app.
      apply and_iff_compat_l. rewrite Forall_lookup. split.
      * intros Hall i Hi. apply granted_or_thrown_true.
        rewrite <- await_request_promise. apply (Hall i).
        by rewrite list_lookup_imap, lookup_replicate_2.
      * intros Hall i p. rewrite list_lookup_imap.
        destruct (replicate N D !! i) as [d|] eqn:Hd; [|done].
        apply lookup_replicate in Hd as [-> Hi]. intros [= <-].
        rewrite await_request_promise. by apply granted_or_thrown_true, Hall.
  - intros w once. subst once. unfold exec at 1 2 3.
    rewrite map_pushPermission_times_S. unfold exec.
    rewrite map_pushPermission_Desc_run. cbn [snd].
    split_and!; try done.
    + unfold MapPermissionManager.requests_for.
      destruct (this_permissions w !! name_str (name D)); cbn [host_log]; [lia|].
      rewrite filter_app, length_app, filter_cons_True by done. done.
    + intros Hk b. pose proof (wait_after_pushPermission answer D w b Hk) as Hw.
      unfold exec in Hw. rewrite map_pushPermission_Desc_run in Hw. done.
Qed.

(** C1, the counterexample: two accumulations of [read:a] on a fresh
    array-backed manager make two host requests for it and track two
    promises. *)
Lemma C1_counterexample_two_accumulations_two_requests :
  let w := exec (PermissionManager.pushPermission_times 2 (Desc (Permission.read (Some "a"))))
                PermissionManager.fresh in
  PermissionManager.requests_for (Permission.read (Some "a")) w = 2
  ∧ PermissionManager.tracked_for (Permission.read (Some "a")) w = 2.
Proof. cbv zeta. split; reflexivity. Qed.

(** C9 (as the code has it). The names are the seven of the closed
    enumeration, each once. In the array-backed manager [all()] makes one
    host request for the unscoped descriptor of each name, in the order of
    the enumeration, and tracks a promise for each, whatever is tracked
    already. In the map-backed manager [all()] requests, in that order, the
    unscoped descriptor of each name that no promise is tracked under;
    afterwards every name is tracked and the earlier entries are kept. *)
Theorem C9_all_requests_each_name_once :
  permissions = [Env; Read; Write; Net; Run; Hrtime; Ffi]
  ∧ NoDup permissions
  ∧ (∀ n : PName, n ∈ permissions)
  ∧ (∀ w : World PermissionManager.Registry,
       let w' := exec PermissionManager.all w in
       host_log w' = host_log w ++ map (λ n, Request (unscoped n)) permissions
       ∧ PermissionManager.tracked w' =
           PermissionManager.tracked w ++ map (λ n, Request (unscoped n)) permissions)
  ∧ (∀ w : World MapPermissionManager.Registry,
       let w' := exec MapPermissionManager.all w in
       host_log w' =
         host_log w ++
         map (λ n, Request (unscoped n))
             (filter (λ n, this_permissions w !! name_str n = None) permissions)
       ∧ (∀ n, is_Some (this_permissions w' !! name_str n))
       ∧ (∀ key p, this_permissions w !! key = Some p →
                   this_permissions w' !! key = Some p)).
Proof.
  split_and!.
  - done.
  - apply permissions_NoDup.
  - apply permissions_complete.
  - intros w w'. subst w'. unfold exec. rewrite all_run. cbn [snd].
    unfold PermissionManager.tracked. cbn [host_log this_permissions].
    split; [done|].
    by rewrite map_app.
  - intros w w'. subst w'. unfold exec. rewrite map_all_forEach.
    destruct (map_forEach_names permissions w permissions_NoDup) as (Hlog & Htr & Hkeep).
    split_and!; [done| |done].
    intros n. apply Htr, permissions_complete.
Qed.

(** C9, the counterexample: in the array-backed manager [all()] is not
    deduplicated against what is tracked; called twice on a fresh manager
    it makes two host requests for each name and tracks fourteen promises. *)
Lemma C9_counterexample_all_twice_requests_twice :
  let w := exec (PermissionManager.all ;; PermissionManager.all) PermissionManager.fresh in
  length (this_permissions w) = 14
  ∧ Forall (λ n, PermissionManager.requests_for (unscoped n) w = 2) permissions.
Proof. cbv zeta. split; [reflexivity|]. repeat constructor. Qed.

(** ** Worked examples *)

(** The first example of the class documentation:
    [await pm.read("config.toml").write("test.log").ensure()]. *)
Example ensure_when_both_granted :
  eval (PermissionManager.ensure host_grants_all)
       (exec (PermissionManager.read (Some (One "config.toml")) ;;
              PermissionManager.write (Some (One "test.log")))
             PermissionManager.fresh) = Return tt.
Proof. reflexivity. Qed.

Example ensure_when_write_denied :
  let host := host_denies (Permission.write (Some "test.log")) in
  let w := exec (PermissionManager.read (Some (One "config.toml")) ;;
                 PermissionManager.write (Some (One "test.log")))
                PermissionManager.fresh in
  eval (PermissionManager.ensure host) w = Throw (Error "Permission denied")
  ∧ eval (PermissionManager.settle host) w = Return false.
Proof. split; reflexivity. Qed.

(** The second example: [await pm.env(["HOME", "LANG"]).settle()]. *)
Example settle_env_array :
  let w := exec (PermissionManager.env (Some (Many ["HOME"; "LANG"]))) PermissionManager.fresh in
  host_log w = [Request (Permission.env (Some "HOME")); Request (Permission.env (Some "LANG"))]
  ∧ eval (PermissionManager.settle host_grants_all) w = Return true
  ∧ eval (PermissionManager.settle (host_denies (Permission.env (Some "LANG")))) w =
    Return false.
Proof. split_and!; reflexivity. Qed.

(** [hrtime] carries no scope, whatever is passed to [desc]. *)
Example desc_hrtime_ignores_the_scope (o : option string) :
  PermissionManager.desc Hrtime o = unscoped Hrtime.
Proof. reflexivity. Qed.

(** The map-backed manager keys by name: after [read("a")], [read("b")] makes
    no host request. *)
Example map_read_b_after_read_a :
  host_log (exec (MapPermissionManager.read (Some "a") ;; MapPermissionManager.read (Some "b"))
                 MapPermissionManager.fresh) =
    [Request (Permission.read (Some "a"))].
Proof. reflexivity. Qed.

(** * Further properties of the code *)

(** ** The array-backed manager and the host's log *)

Lemma promises_of_app (k : nat) (l1 l2 : list HostCall) :
  promises_of k (l1 ++ l2) = promises_of k l1 ++ promises_of (k + length l1) l2.
Proof.
  revert k. induction l1 as [|c l1 IH]; intros k; cbn [app promises_of length].
  - by rewrite Nat.add_0_r.
  - replace (k + S (length l1)) with (S k + length l1) by lia.
    destruct c; by rewrite IH.
Qed.

Lemma promises_of_requests (k : nat) (ds : list P) :
  promises_of k (map Request ds) = imap (λ i d, request_promise (k + i) d) ds.
Proof.
  revert k. induction ds as [|d ds IH]; intros k; [done|].
  cbn [map promises_of imap]. rewrite Nat.add_0_r, IH. f_equal.
  apply imap_ext. intros i x _. simpl. f_equal. lia.
Qed.

Lemma promises_of_queries (k : nat) (ds : list P) :
  promises_of k (map Query ds) = [].
Proof. revert k. induction ds as [|d ds IH]; intros k; [done|]. apply IH. Qed.

Lemma promises_of_asked (k : nat) (log : list HostCall) :
  map asked (promises_of k log) = filter is_request log.
Proof.
  revert k. induction log as [|[d|d] log IH]; intros k; [done| |].
  - cbn [promises_of map]. rewrite filter_cons_True by done. by rewrite IH.
  - cbn [promises_of]. rewrite filter_cons_False by (by intros ?). apply IH.
Qed.

(** A promise of [promises_of k log] is the one made for a request call of
    the log, at the position its ticket says. *)
Lemma promises_of_lookup (k : nat) (log : list HostCall) (j : nat) (p : Promise bool) :
  promises_of k log !! j = Some p →
  ∃ d, p = request_promise (ticket p) d ∧ (k ≤ ticket p)%nat
       ∧ log !! (ticket p - k) = Some (Request d).
Proof.
  revert k j. induction log as [|[d|d] log IH]; intros k j Hj; [done| |].
  - destruct j as [|j]; cbn in Hj.
    + injection Hj as <-. exists d. cbn. by rewrite Nat.sub_diag.
    + destruct (IH (S k) j Hj) as (d' & Hp & Hk & Hlog). exists d'.
      split_and!; [done|lia|].
      replace (ticket p - k) with (S (ticket p - S k)) by lia. done.
  - cbn [promises_of] in Hj.
    destruct (IH (S k) j Hj) as (d' & Hp & Hk & Hlog). exists d'.
    split_and!; [done|lia|].
    replace (ticket p - k) with (S (ticket p - S k)) by lia. done.
Qed.

Lemma promises_of_increasing (k : nat) (log : list HostCall) (i j : nat)
    (p q : Promise bool) :
  (i < j)%nat → promises_of k log !! i = Some p → promises_of k log !! j = Some q →
  (ticket p < ticket q)%nat.
Proof.
  revert k i j. induction log as [|[d|d] log IH]; intros k i j Hij Hi Hj; [done| |].
  - destruct j as [|j]; [lia|]. cbn in Hj. destruct i as [|i]; cbn in Hi.
    + injection Hi as <-. cbn.
      destruct (promises_of_lookup (S k) log j q Hj) as (_ & _ & Hk & _). lia.
    + apply (IH (S k) i j); [lia|done..].
  - cbn [promises_of] in Hi, Hj. by apply (IH (S k) i j).
Qed.

Section ArrayManagerLog.
Import PermissionManager.
Variable answer : Oracle.

Lemma step_promises_of (c : Call) (w : World Registry) :
  this_permissions w = promises_of 0 (host_log w) →
  this_permissions (step answer c w) = promises_of 0 (host_log (step answer c w)).
Proof.
  intros Hw.
  destruct (step_cases answer c w) as [[ds ->]|[ds ->]]; cbn [host_log this_permissions];
    rewrite promises_of_app, <- Hw; cbn [Nat.add].
  - by rewrite promises_of_requests.
  - by rewrite promises_of_queries, app_nil_r.
Qed.

Lemma steps_promises_of (cs : list Call) (w : World Registry) :
  this_permissions w = promises_of 0 (host_log w) →
  this_permissions (steps answer cs w) = promises_of 0 (host_log (steps answer cs w)).
Proof.
  revert w. induction cs as [|c cs IH]; intros w Hw; simpl; [done|].
  by apply IH, step_promises_of.
Qed.

(** X1. In every world that public calls lead to from a fresh manager, the
    tracked array is exactly the promises of the request calls in the host's
    log, one for one and in the order of the calls: every request the
    manager made is tracked, and nothing else is. *)
Theorem X1_tracked_promises_are_the_requests_of_the_log (cs : list Call) :
  let w := steps answer cs fresh in
  this_permissions w = promises_of 0 (host_log w)
  ∧ tracked w = filter is_request (host_log w)
  ∧ length (this_permissions w) = length (filter is_request (host_log w)).
Proof.
  intros w.
  assert (Hw : this_permissions w = promises_of 0 (host_log w))
    by by apply steps_promises_of.
  assert (Htr : tracked w = filter is_request (host_log w)).
  { unfold tracked. rewrite Hw. apply promises_of_asked. }
  split_and!; [done..|].
  rewrite <- Htr. unfold tracked. by rewrite length_map.
Qed.

(** X2. In every such world each tracked promise is the one
    [requestPermission] made for a request call that is in the host's log at
    the position of its ticket, and the tickets increase along the array: no
    two tracked promises await the same host call. *)
Theorem X2_each_tracked_promise_awaits_its_own_request (cs : list Call) :
  let w := steps answer cs fresh in
  (∀ j p, this_permissions w !! j = Some p →
          ∃ d, p = request_promise (ticket p) d
               ∧ host_log w !! ticket p = Some (Request d))
  ∧ (∀ i j p q, (i < j)%nat →
                this_permissions w !! i = Some p → this_permissions w !! j = Some q →
                (ticket p < ticket q)%nat).
Proof.
  intros w.
  assert (Hw : this_permissions w = promises_of 0 (host_log w))
    by by apply steps_promises_of.
  rewrite Hw. split.
  - intros j p Hp. destruct (promises_of_lookup 0 _ j p Hp) as (d & Heq & _ & Hlog).
    exists d. by rewrite Nat.sub_0_r in Hlog.
  - intros i j p q. apply promises_of_increasing.
Qed.

End ArrayManagerLog.

Lemma exec_seq {R A} (m : M R unit) (k : M R A) (w : World R) :
  exec (m ;; k) w = exec k (exec m w).
Proof. unfold exec, mbind, M_bind. by destruct (m w). Qed.

Section ArrayManagerVerdict.
Import PermissionManager.
Variable answer : Oracle.

(** X3. A verdict of [false] is final: once [settle()] has returned
    [false] it never returns [true] again. After any further public calls
    [settle()] returns [false], or throws the rejection of a request by the
    host, and [ensure()] throws; [settle()] returns [false], and [ensure()]
    throws [Error("Permission denied")], exactly when the host settled
    every tracked request. *)
Theorem X3_a_false_verdict_is_final (cs : list Call) (w : World Registry) :
  eval (settle answer) w = Return false →
  let w' := steps answer cs w in
  eval (settle answer) w' ≠ Return true
  ∧ (eval (settle answer) w' = Return false
     ∨ ∃ reason, eval (settle answer) w' = Throw (HostError reason))
  ∧ (∃ e, eval (ensure answer) w' = Throw e)
  ∧ (eval (settle answer) w' = Return false ↔
     Forall (λ p, ∃ b, await answer p = Return b) (this_permissions w'))
  ∧ (eval (ensure answer) w' = Throw (Error "Permission denied") ↔
     Forall (λ p, ∃ b, await answer p = Return b) (this_permissions w')).
Proof.
  intros Hw w'.
  assert (Hex : Exists (λ p, await answer p = Return false) (this_permissions w')).
  { apply settle_false_iff in Hw as [_ Hw]. subst w'.
    destruct (steps_prefix answer cs w) as [added ->]. apply Exists_app. by left. }
  assert (Hnt : eval (settle answer) w' ≠ Return true).
  { intros Ht. apply settle_true_iff in Ht.
    apply Exists_exists in Hex as (p & Hp & Hf).
    rewrite Forall_forall in Ht. apply Ht in Hp. congruence. }
  assert (Hfalse : eval (settle answer) w' = Return false ↔
                   Forall (λ p, ∃ b, await answer p = Return b) (this_permissions w')).
  { rewrite settle_false_iff. tauto. }
  split_and!; [done| | |done|].
  - destruct (eval (settle answer) w') as [[]|e] eqn:Hs; [done|by left|].
    right. apply settle_Throw_HostError in Hs as (reason & -> & _). by eexists.
  - unfold eval at 1. rewrite ensure_run. cbn [fst].
    destruct (eval (settle answer) w') as [[]|e]; [done|by eexists..].
  - rewrite <- Hfalse. unfold eval at 1. rewrite ensure_run. cbn [fst].
    destruct (eval (settle answer) w') as [[]|e] eqn:Hs; try done.
    apply settle_Throw_HostError in Hs as (reason & -> & _). done.
Qed.

(** The host calls a call makes are those read off the call. *)
Lemma step_host_log (c : Call) (w : World Registry) :
  host_log (step answer c w) = host_log w ++ host_calls_of c.
Proof.
  assert (Hperm : ∀ n o, host_log (exec (permission n o) w) =
                         host_log w ++ map (λ v, Request (desc n v)) (scopes o)).
  { intros n o. unfold exec. by rewrite permission_run. }
  assert (Hlift : ∀ (m : M Registry unit),
            exec (m ;; mret (Return v_this)) w = exec m w).
  { intros m. unfold exec, mbind, M_bind. by destruct (m w). }
  unfold step.
  destruct c; cbn [call host_calls_of]; rewrite ?Hlift;
    unfold env, read, write, net, run, ffi, hrtime; rewrite ?Hperm; try done.
  - unfold exec. by rewrite all_run.
  - change (exec (r ← can answer n o; mret (as_bool r)) w)
      with (step answer (call_can n o) w).
    rewrite step_can. pose proof (can_run answer n o w) as Hcan. cbv zeta in Hcan.
    by rewrite Hcan.
  - unfold exec, mbind, M_bind. rewrite settle_run. cbn. by rewrite app_nil_r.
  - unfold exec, mbind, M_bind. rewrite ensure_run. cbn. by rewrite app_nil_r.
Qed.

(** X4. On an empty array [permission] does nothing at all, and [can]
    returns [false] without asking the host. *)
Theorem X4_empty_array (n : PName) (w : World Registry) :
  permission n (Some (Many [])) w = (tt, w)
  ∧ can answer n (Some (Many [])) w = (Return false, w).
Proof. by destruct w. Qed.

(** Accumulating an array is accumulating its parts one after the
    other: an array that is the concatenation of two is the first part then
    the second, and a single value is the array of that value. *)
Lemma permission_splits_over_concatenation (n : PName) (l1 l2 : list string)
    (s : string) (w : World Registry) :
  exec (permission n (Some (Many (l1 ++ l2)))) w =
    exec (permission n (Some (Many l1)) ;; permission n (Some (Many l2))) w
  ∧ exec (permission n (Some (One s))) w = exec (permission n (Some (Many [s]))) w.
Proof.
  split.
  - rewrite exec_seq, !permission_descs. cbv zeta. cbn [host_log this_permissions].
    rewrite !map_app, <- !app_assoc, imap_app, !length_app, !length_map.
    do 3 f_equal. apply imap_ext. intros i d _. simpl. f_equal. lia.
  - by rewrite !permission_descs.
Qed.

(** X5. [all()] is the seven shorthands called without an argument, in the
    order of the enumeration. *)
Theorem X5_all_is_the_seven_shorthands (w : World Registry) :
  exec all w =
    exec (env None ;; read None ;; write None ;; net None ;; run None ;; hrtime ;; ffi None) w.
Proof.
  rewrite !exec_seq. unfold env, read, write, net, run, hrtime, ffi.
  rewrite !permission_descs. cbv zeta. cbn [host_log this_permissions map imap].
  unfold exec. rewrite all_run. cbn [snd]. unfold permissions. cbn [map imap].
  rewrite <- !app_assoc, !length_app. cbn [app length].
  rewrite <- !Nat.add_assoc. cbn [Nat.add].
  done.
Qed.

End ArrayManagerVerdict.

(** X3 at a host that denies [write:test.log]. *)
Lemma X3_witness :
  let host := host_denies (Permission.write (Some "test.log")) in
  let w := exec (PermissionManager.write (Some (One "test.log"))) PermissionManager.fresh in
  let w' := PermissionManager.steps host [PermissionManager.call_all] w in
  eval (PermissionManager.settle host) w' ≠ Return true
  ∧ (eval (PermissionManager.settle host) w' = Return false
     ∨ ∃ reason, eval (PermissionManager.settle host) w' = Throw (HostError reason))
  ∧ (∃ e, eval (PermissionManager.ensure host) w' = Throw e)
  ∧ (eval (PermissionManager.settle host) w' = Return false ↔
     Forall (λ p, ∃ b, await host p = Return b) (this_permissions w'))
  ∧ (eval (PermissionManager.ensure host) w' = Throw (Error "Permission denied") ↔
     Forall (λ p, ∃ b, await host p = Return b) (this_permissions w')).
Proof.
  cbv zeta.
  apply (X3_a_false_verdict_is_final
           (host_denies (Permission.write (Some "test.log")))
           [PermissionManager.call_all]
           (exec (PermissionManager.write (Some (One "test.log"))) PermissionManager.fresh)).
  reflexivity.
Defined.

Section ArrayManagerClosedForm.
Import PermissionManager.
Variable answer : Oracle.

(** The world after a call, in closed form. *)
Lemma step_closed_form (c : Call) (w : World Registry) :
  step answer c w =
    mkWorld (host_log w ++ host_calls_of c)
            (this_permissions w ++ promises_of (length (host_log w)) (host_calls_of c)).
Proof.
  pose proof (step_host_log answer c w) as Hlog.
  destruct (step_cases answer c w) as [[ds Hds]|[ds Hds]]; rewrite Hds in Hlog |- *;
    cbn [host_log] in Hlog; apply app_inv_head in Hlog; rewrite <- Hlog.
  - by rewrite promises_of_requests.
  - by rewrite promises_of_queries, app_nil_r.
Qed.

Lemma steps_closed_form (cs : list Call) (w : World Registry) :
  steps answer cs w =
    mkWorld (host_log w ++ concat (map host_calls_of cs))
            (this_permissions w ++
             promises_of (length (host_log w)) (concat (map host_calls_of cs))).
Proof.
  revert w. induction cs as [|c cs IH]; intros w; cbn [steps fold_left map concat promises_of].
  - destruct w. cbn. by rewrite !app_nil_r.
  - fold (steps answer cs (step answer c w)). rewrite IH, step_closed_form.
    cbn [host_log this_permissions].
    by rewrite promises_of_app, length_app, <- !app_assoc.
Qed.

(** X6. The world after a public call, and after any sequence of public
    calls, in closed form: the host's log grows by the host calls read off
    the calls, which do not depend on what is tracked, on the log so far or
    on the host's answers, and the tracked array grows by the promises of
    the request calls among them. Accumulating calls only request, [can]
    only queries, and [settle] and [ensure] do not call the host. *)
Theorem X6_the_world_after_calls_in_closed_form :
  (∀ c w, step answer c w =
          mkWorld (host_log w ++ host_calls_of c)
                  (this_permissions w ++
                   promises_of (length (host_log w)) (host_calls_of c)))
  ∧ (∀ cs w, steps answer cs w =
             mkWorld (host_log w ++ concat (map host_calls_of cs))
                     (this_permissions w ++
                      promises_of (length (host_log w)) (concat (map host_calls_of cs))))
  ∧ (∀ c, Forall (λ h, is_request h = true) (host_calls_of c)
          ∨ Forall (λ h, is_request h = false) (host_calls_of c)).
Proof.
  split_and!.
  - apply step_closed_form.
  - apply steps_closed_form.
  - intros c. destruct c; cbn [host_calls_of];
      try (left; apply Forall_forall; intros h Hh; apply list_elem_of_In in Hh;
           apply in_map_iff in Hh as [? [<- _]]; done).
    + left. by repeat constructor.
    + right. apply Forall_forall. intros h Hh. apply list_elem_of_In in Hh.
      by apply in_map_iff in Hh as [? [<- _]].
    + by left.
    + by left.
Qed.

(** What the promises of a log complete with at a host that answers a call
    the same whenever it is asked. *)
Lemma await_promises_of (k : nat) (log : list HostCall) :
  position_independent answer →
  map (await answer) (promises_of k log) =
    map (λ c, granted_or_thrown (answer 0 c)) (filter is_request log).
Proof.
  intros Hpi. revert k. induction log as [|[d|d] log IH]; intros k; [done| |].
  - cbn [promises_of map]. rewrite filter_cons_True by done. cbn [map].
    by rewrite IH, await_request_promise, (Hpi k 0).
  - cbn [promises_of]. rewrite filter_cons_False by (by intros ?). apply IH.
Qed.

(** X7. At a host whose answer to a call does not depend on when it is
    asked, the verdict does not depend on the order of the calls: of two
    sequences of public calls that are permutations of each other, one leads
    to a [settle()] that returns [b] exactly when the other does, and to a
    [settle()] that throws exactly when the other does; when the host
    settles every call the two lead to the same [settle()]. *)
Theorem X7_the_verdict_does_not_depend_on_the_order_of_the_calls
    (cs cs' : list Call) (w : World Registry) :
  position_independent answer →
  cs ≡ₚ cs' →
  (∀ b, eval (settle answer) (steps answer cs w) = Return b ↔
        eval (settle answer) (steps answer cs' w) = Return b)
  ∧ ((∃ e, eval (settle answer) (steps answer cs w) = Throw e) ↔
     ∃ e, eval (settle answer) (steps answer cs' w) = Throw e)
  ∧ ((∀ i c, ∃ st, answer i c = Settled st) →
     eval (settle answer) (steps answer cs w) = eval (settle answer) (steps answer cs' w)).
Proof.
  intros Hpi Hperm.
  assert (Hcalls : concat (map host_calls_of cs) ≡ₚ concat (map host_calls_of cs')).
  { clear -Hperm. induction Hperm as [|c l k _ IH|c1 c2 l|l k m _ IH1 _ IH2]; cbn [map concat].
    - done.
    - by rewrite IH.
    - rewrite !app_assoc. f_equiv. apply Permutation_app_comm.
    - by etrans. }
  assert (Hret : ∀ b, eval (settle answer) (steps answer cs w) = Return b ↔
                      eval (settle answer) (steps answer cs' w) = Return b).
  { intros b. unfold eval. rewrite !settle_run, !steps_closed_form.
    cbn [fst this_permissions]. rewrite !map_app, !verdict_app.
    rewrite !await_promises_of by done.
    assert (H2 : ∀ b2,
      verdict_of (map (λ c, granted_or_thrown (answer 0 c))
                      (filter is_request (concat (map host_calls_of cs)))) = Return b2 ↔
      verdict_of (map (λ c, granted_or_thrown (answer 0 c))
                      (filter is_request (concat (map host_calls_of cs')))) = Return b2).
    { intros b2. apply verdict_Permutation, Permutation_map. by rewrite Hcalls. }
    split; intros (b1 & b2 & H1 & Hb2 & Hb); exists b1, b2; by rewrite ?H2 in *. }
  split_and!; [done| |].
  - destruct (eval (settle answer) (steps answer cs w)) as [b|e] eqn:H1,
      (eval (settle answer) (steps answer cs' w)) as [b'|e'] eqn:H2.
    + split; by intros [? ?].
    + destruct (Hret b) as [H _]. by specialize (H eq_refl).
    + destruct (Hret b') as [_ H]. by specialize (H eq_refl).
    + split; intros _; by eexists.
  - intros Hsettles.
    destruct (eval (settle answer) (steps answer cs w)) as [b|e] eqn:H1.
    + symmetry. by apply Hret.
    + apply settle_Throw_HostError in H1 as (reason & _ & Hex).
      apply Exists_exists in Hex as (p & _ & Hp). unfold outcome in Hp.
      destruct (Hsettles (ticket p) (asked p)) as [st Hst]. congruence.
Qed.

End ArrayManagerClosedForm.

(** X7 at the host that grants everything, for [read("a")] and [write("b")]
    in the two orders. *)
Lemma X7_witness :
  let cs := [PermissionManager.call_read (Some (One "a"));
             PermissionManager.call_write (Some (One "b"))] in
  let cs' := [PermissionManager.call_write (Some (One "b"));
              PermissionManager.call_read (Some (One "a"))] in
  let w := PermissionManager.fresh in
  (∀ b, eval (PermissionManager.settle host_grants_all)
             (PermissionManager.steps host_grants_all cs w) = Return b ↔
        eval (PermissionManager.settle host_grants_all)
             (PermissionManager.steps host_grants_all cs' w) = Return b)
  ∧ ((∃ e, eval (PermissionManager.settle host_grants_all)
                (PermissionManager.steps host_grants_all cs w) = Throw e) ↔
     ∃ e, eval (PermissionManager.settle host_grants_all)
               (PermissionManager.steps host_grants_all cs' w) = Throw e)
  ∧ ((∀ i c, ∃ st, host_grants_all i c = Settled st) →
     eval (PermissionManager.settle host_grants_all)
          (PermissionManager.steps host_grants_all cs w) =
     eval (PermissionManager.settle host_grants_all)
          (PermissionManager.steps host_grants_all cs' w)).
Proof.
  cbv zeta.
  apply (X7_the_verdict_does_not_depend_on_the_order_of_the_calls host_grants_all).
  - intros i j c. reflexivity.
  - apply perm_swap.
Defined.

(** ** The descriptors *)

(** X8. [desc(name, o)] reads back: the descriptor has the name it was built
    for and, unless the name is ["hrtime"], the scope it was built with, held
    by the one property of that name; for ["hrtime"] the scope is dropped.
    So two calls build the same descriptor exactly when the names agree and
    the scopes agree or the name is ["hrtime"]. *)
Theorem X8_desc_reads_back (n n' : PName) (o o' : option string) :
  name (PermissionManager.desc n o) = n
  ∧ scope (PermissionManager.desc n o) = (if decide (n = Hrtime) then None else o)
  ∧ variable (PermissionManager.desc n o) = (if decide (n = Env) then o else None)
  ∧ path (PermissionManager.desc n o) =
      (if decide (n = Read ∨ n = Write ∨ n = Ffi) then o else None)
  ∧ host (PermissionManager.desc n o) = (if decide (n = Net) then o else None)
  ∧ command (PermissionManager.desc n o) = (if decide (n = Run) then o else None)
  ∧ (PermissionManager.desc n o = PermissionManager.desc n' o' ↔
     n = n' ∧ (n = Hrtime ∨ o = o')).
Proof.
  split_and!; try (by destruct n, o).
  split.
  - intros Heq. assert (n = n') as <- by (by apply (f_equal name) in Heq; destruct n, n').
    split; [done|]. destruct n; try (by left); right;
      injection Heq; congruence.
  - intros [<- [->| ->]]; done.
Qed.

(** X9. [desc] on an array builds what the array overload of the factory
    method of that name builds; for ["hrtime"], which has no such overload,
    it builds the unscoped descriptor once per element. In every case there
    is one descriptor per element. *)
Theorem X9_desc_on_an_array_is_the_array_overload (n : PName) (l : list string) :
  PermissionManager.desc_array n l =
    match n with
    | Env => Permission.env_array l
    | Read => Permission.read_array l
    | Write => Permission.write_array l
    | Net => Permission.net_array l
    | Run => Permission.run_array l
    | Ffi => Permission.ffi_array l
    | Hrtime => replicate (length l) Permission.hrtime
    end
  ∧ length (PermissionManager.desc_array n l) = length l.
Proof.
  split.
  - destruct n; try reflexivity.
    unfold PermissionManager.desc_array. induction l as [|v l IH]; [done|].
    cbn [map length replicate]. by rewrite IH.
  - unfold PermissionManager.desc_array. apply length_map.
Qed.

(** ** The map-backed manager over its lifetime *)

Section MapManagerCalls.
Import MapPermissionManager.
Variable answer : Oracle.

Lemma map_forEach_tracked (ns : list PName) (w : World Registry) :
  (∀ n, n ∈ ns → is_Some (this_permissions w !! name_str n)) →
  forEach (λ n, pushPermission (Desc (unscoped n))) ns w = (tt, w).
Proof.
  induction ns as [|n ns IH]; intros Hall; [done|].
  cbn [forEach]. unfold mbind, M_bind.
  rewrite map_pushPermission_tracked.
  - apply IH. intros m Hm. apply Hall. by right.
  - apply Hall. by left.
Qed.

(** Once every name is tracked, no accumulation does anything. *)
Lemma map_pushPermission_saturated (perm : Perm) (w : World Registry) :
  (∀ n, is_Some (this_permissions w !! name_str n)) →
  pushPermission perm w = (tt, w).
Proof.
  intros Hall. destruct perm as [|d].
  - change (pushPermission Star w) with (all w). rewrite map_all_forEach.
    apply map_forEach_tracked. intros n _. apply Hall.
  - apply map_pushPermission_tracked, Hall.
Qed.

Lemma map_all_saturates (w : World Registry) (n : PName) :
  is_Some (this_permissions (exec all w) !! name_str n).
Proof.
  unfold exec. rewrite map_all_forEach.
  destruct (map_forEach_names permissions w permissions_NoDup) as (_ & Htr & _).
  apply Htr, permissions_complete.
Qed.

Lemma map_pushPermission_keyed (d : P) (w : World Registry) :
  keyed_by_name w → keyed_by_name (exec (pushPermission (Desc d)) w).
Proof.
  intros [Hkeys Hsize]. unfold exec. rewrite map_pushPermission_Desc_run. cbn [snd].
  destruct (this_permissions w !! name_str (name d)) as [q|] eqn:Hk; [done|].
  split; cbn [host_log this_permissions].
  - intros key p. rewrite lookup_insert. case_decide as Hkey.
    + intros [= <-]. exists d. cbn. split_and!; [done..|].
      by rewrite lookup_app_r, Nat.sub_diag.
    + intros Hp. destruct (Hkeys key p Hp) as (d' & ? & ? & Hlog). exists d'.
      split_and!; [done..|]. by apply lookup_app_l_Some.
  - rewrite filter_app, length_app, filter_cons_True by done.
    rewrite map_size_insert_None by done. cbn. lia.
Qed.

Lemma map_forEach_keyed (ns : list PName) (w : World Registry) :
  keyed_by_name w →
  keyed_by_name (exec (forEach (λ n, pushPermission (Desc (unscoped n))) ns) w).
Proof.
  revert w. induction ns as [|n ns IH]; intros w Hw; [done|].
  cbn [forEach]. rewrite exec_seq. by apply IH, map_pushPermission_keyed.
Qed.

Lemma map_query_keyed (d : P) (w : World Registry) :
  keyed_by_name w →
  keyed_by_name (mkWorld (host_log w ++ [Query d]) (this_permissions w)).
Proof.
  intros [Hkeys Hsize]. split; cbn [host_log this_permissions].
  - intros key p Hp. destruct (Hkeys key p Hp) as (d' & ? & ? & Hlog). exists d'.
    split_and!; [done..|]. by apply lookup_app_l_Some.
  - rewrite filter_app, filter_cons_False by (by intros ?).
    by rewrite filter_nil, app_nil_r.
Qed.

Lemma map_step_keyed (c : Call) (w : World Registry) :
  keyed_by_name w → keyed_by_name (step answer c w).
Proof.
  intros Hw. destruct c; cbn [step];
    try (by apply map_pushPermission_keyed).
  - unfold exec. rewrite map_all_forEach. by apply map_forEach_keyed.
  - by apply map_query_keyed.
  - done.
  - unfold exec, ensure, mbind, M_bind. by rewrite wait_run.
Qed.

Lemma map_steps_keyed (cs : list Call) (w : World Registry) :
  keyed_by_name w → keyed_by_name (steps answer cs w).
Proof.
  revert w. induction cs as [|c cs IH]; intros w Hw; cbn; [done|].
  by apply IH, map_step_keyed.
Qed.

Lemma keyed_by_name_size (w : World Registry) :
  keyed_by_name w → (size (this_permissions w) ≤ 7)%nat.
Proof.
  intros [Hkeys _].
  rewrite <- (size_dom (D := gset string)).
  etrans; [apply (subseteq_size _ (list_to_set (name_str <$> permissions)))|].
  - intros key [p Hp]%elem_of_dom. destruct (Hkeys key p Hp) as (d & -> & _).
    apply elem_of_list_to_set, list_elem_of_fmap. exists (name d).
    split; [done|apply permissions_complete].
  - rewrite size_list_to_set; [done|]. apply (bool_decide_unpack _). by vm_compute.
Qed.

(** X10. Over the lifetime of a map-backed manager, whatever public calls
    are made: each tracked promise is filed under the name of the descriptor
    it was requested for and awaits that request; the manager has asked the
    host for exactly as many things as it tracks, so at most once per name
    and at most seven times in all. *)
Theorem X10_the_map_backed_manager_requests_once_per_name (cs : list Call) :
  let w := steps answer cs fresh in
  (∀ key p, this_permissions w !! key = Some p →
            ∃ d, key = name_str (name d) ∧ p = request_promise (ticket p) d
                 ∧ host_log w !! ticket p = Some (Request d))
  ∧ length (filter is_request (host_log w)) = size (this_permissions w)
  ∧ (length (filter is_request (host_log w)) ≤ 7)%nat.
Proof.
  intros w.
  assert (Hw : keyed_by_name w).
  { apply map_steps_keyed. split; [by intros key p|done]. }
  destruct Hw as [Hkeys Hsize]. split_and!; [done..|].
  rewrite Hsize. by apply keyed_by_name_size.
Qed.

(** X11. The first descriptor accumulated under a name wins: accumulating a
    second descriptor of the same name, whatever its scope, changes nothing
    and asks the host nothing. *)
Theorem X11_the_first_descriptor_of_a_name_wins (d1 d2 : P) (w : World Registry) :
  name d1 = name d2 →
  exec (pushPermission (Desc d1) ;; pushPermission (Desc d2)) w =
    exec (pushPermission (Desc d1)) w.
Proof.
  intros Hname. rewrite exec_seq. unfold exec at 1.
  rewrite map_pushPermission_tracked; [done|].
  rewrite <- Hname. apply map_pushPermission_tracks.
Qed.

(** X12. [all()] saturates the manager: after it every name is tracked, and
    any further accumulation, [all()] again included, changes nothing and
    asks the host nothing. *)
Theorem X12_nothing_is_accumulated_after_all (perm : Perm) (w : World Registry) :
  (∀ n, is_Some (this_permissions (exec all w) !! name_str n))
  ∧ exec (all ;; pushPermission perm) w = exec all w
  ∧ exec (all ;; all) w = exec all w.
Proof.
  assert (Habs : ∀ perm', exec (all ;; pushPermission perm') w = exec all w).
  { intros perm'. rewrite exec_seq. unfold exec at 1.
    rewrite map_pushPermission_saturated; [done|]. apply map_all_saturates. }
  split_and!; [apply map_all_saturates|apply Habs|apply (Habs Star)].
Qed.

End MapManagerCalls.

(** X11 for [read("a")] then [read("b")]. *)
Lemma X11_witness :
  exec (MapPermissionManager.pushPermission (Desc (Permission.read (Some "a"))) ;;
        MapPermissionManager.pushPermission (Desc (Permission.read (Some "b"))))
       MapPermissionManager.fresh =
  exec (MapPermissionManager.pushPermission (Desc (Permission.read (Some "a"))))
       MapPermissionManager.fresh.
Proof.
  apply (X11_the_first_descriptor_of_a_name_wins
           (Permission.read (Some "a")) (Permission.read (Some "b"))).
  reflexivity.
Defined.

Section MapManagerVerdict.
Import MapPermissionManager.
Variable answer : Oracle.

Lemma wait_true_iff (w : World Registry) :
  eval (wait answer) w = Return true ↔
  map_Forall (λ _ p, await answer p = Return true) (this_permissions w).
Proof.
  unfold eval. rewrite wait_run. cbn [fst].
  rewrite verdict_true_iff, Forall_map, values_Permutation.
  rewrite Forall_map, map_Forall_to_list. apply Forall_iff. by intros [key p].
Qed.

Lemma wait_Throw_iff (w : World Registry) :
  (∃ e, eval (wait answer) w = Throw e) ↔
  ∃ key p e, this_permissions w !! key = Some p ∧ await answer p = Throw e.
Proof.
  unfold eval. rewrite wait_run. cbn [fst].
  rewrite verdict_Throw_iff, Exists_map, values_Permutation, Exists_exists. split.
  - intros (p & Hp & e & He). apply list_elem_of_In, in_map_iff in Hp as ([key p'] & <- & Hp).
    apply list_elem_of_In, elem_of_map_to_list in Hp. by exists key, p', e.
  - intros (key & p & e & Hp & He). exists p. split; [|by exists e].
    apply list_elem_of_In, in_map_iff. exists (key, p). split; [done|].
    by apply list_elem_of_In, elem_of_map_to_list.
Qed.

Lemma map_ensure_run (w : World Registry) :
  ensure answer w =
    (match eval (wait answer) w with
     | Return true => Return tt
     | Return false => Throw (Error "Permission denied")
     | Throw e => Throw e
     end, w).
Proof.
  unfold ensure, mbind, M_bind, eval. rewrite wait_run. cbn.
  by destruct (verdict_of _) as [[]|].
Qed.

(** X13. In the map-backed manager [wait()] returns [true] exactly when
    every tracked promise settled to [true], so it returns [true] when
    nothing is tracked, and it throws exactly when a tracked promise was
    rejected; what it throws is a rejection of the host. [ensure()] throws
    [Error("Permission denied")] exactly when [wait()] returns [false],
    returns exactly when [wait()] returns [true], and throws on what
    [wait()] throws. Neither changes what is tracked nor calls the host. *)
Theorem X13_wait_and_ensure_of_the_map_backed_manager (w : World Registry) :
  (eval (wait answer) w = Return true ↔
   ∀ key p, this_permissions w !! key = Some p → await answer p = Return true)
  ∧ eval (wait answer) fresh = Return true
  ∧ ((∃ e, eval (wait answer) w = Throw e) ↔
     ∃ key p e, this_permissions w !! key = Some p ∧ await answer p = Throw e)
  ∧ (∀ e, eval (wait answer) w = Throw e → ∃ reason, e = HostError reason)
  ∧ (eval (ensure answer) w = Throw (Error "Permission denied") ↔
     eval (wait answer) w = Return false)
  ∧ (eval (ensure answer) w = Return tt ↔ eval (wait answer) w = Return true)
  ∧ (∀ e, eval (wait answer) w = Throw e → eval (ensure answer) w = Throw e)
  ∧ exec (wait answer) w = w
  ∧ exec (ensure answer) w = w.
Proof.
  assert (Hhost : ∀ e, eval (wait answer) w = Throw e → ∃ reason, e = HostError reason).
  { intros e. unfold eval. rewrite wait_run. cbn [fst]. intros He.
    apply verdict_Throw_HostError in He as (reason & -> & _). by eexists. }
  split_and!.
  - apply wait_true_iff.
  - done.
  - apply wait_Throw_iff.
  - done.
  - unfold eval at 1. rewrite map_ensure_run. cbn [fst].
    destruct (eval (wait answer) w) as [[]|e] eqn:Hs; try done.
    destruct (Hhost e eq_refl) as [reason ->]. done.
  - unfold eval at 1. rewrite map_ensure_run. cbn [fst].
    by destruct (eval (wait answer) w) as [[]|e].
  - intros e He. unfold eval at 1. rewrite map_ensure_run. cbn [fst]. by rewrite He.
  - done.
  - unfold exec. by rewrite map_ensure_run.
Qed.

Lemma map_pushPermission_grows (d : P) (w : World Registry) :
  this_permissions w ⊆ this_permissions (exec (pushPermission (Desc d)) w)
  ∧ host_log w `prefix_of` host_log (exec (pushPermission (Desc d)) w).
Proof.
  unfold exec. rewrite map_pushPermission_Desc_run. cbn [snd].
  destruct (this_permissions w !! name_str (name d)) as [q|] eqn:Hk; [done|].
  cbn [host_log this_permissions]. split.
  - by apply insert_subseteq.
  - by apply prefix_app_r.
Qed.

Lemma map_forEach_grows (ns : list PName) (w : World Registry) :
  let w' := exec (forEach (λ n, pushPermission (Desc (unscoped n))) ns) w in
  this_permissions w ⊆ this_permissions w' ∧ host_log w `prefix_of` host_log w'.
Proof.
  revert w. induction ns as [|n ns IH]; intros w w'; subst w'; [done|].
  cbn [forEach]. rewrite exec_seq.
  destruct (map_pushPermission_grows (unscoped n) w) as [Hm Hl].
  destruct (IH (exec (pushPermission (Desc (unscoped n))) w)) as [Hm' Hl'].
  split; by etrans.
Qed.

Lemma map_step_grows (c : Call) (w : World Registry) :
  this_permissions w ⊆ this_permissions (step answer c w)
  ∧ host_log w `prefix_of` host_log (step answer c w).
Proof.
  destruct c; cbn [step]; try apply map_pushPermission_grows.
  - unfold exec. rewrite map_all_forEach. apply map_forEach_grows.
  - split; [done|]. by apply prefix_app_r.
  - done.
  - unfold exec. by rewrite map_ensure_run.
Qed.

(** X14. The map-backed manager never drops or replaces a tracked promise
    and never retracts a host call: after any public calls every entry is
    still there, under its key and with its promise, and the host's log
    before is a prefix of the log after. *)
Theorem X14_the_map_only_grows (cs : list Call) (w : World Registry) :
  this_permissions w ⊆ this_permissions (steps answer cs w)
  ∧ (∀ key p, this_permissions w !! key = Some p →
              this_permissions (steps answer cs w) !! key = Some p)
  ∧ host_log w `prefix_of` host_log (steps answer cs w).
Proof.
  assert (H : this_permissions w ⊆ this_permissions (steps answer cs w)
              ∧ host_log w `prefix_of` host_log (steps answer cs w)).
  { revert w. induction cs as [|c cs IH]; intros w; cbn; [done|].
    destruct (map_step_grows c w) as [Hm Hl].
    destruct (IH (step answer c w)) as [Hm' Hl']. split; by etrans. }
  destruct H as [Hm Hl]. split_and!; [done| |done].
  intros key p Hp. by eapply lookup_weaken.
Qed.

End MapManagerVerdict.

(** X15. The inline [desc] of the earlier snapshot and the factory-based
    [desc] build the same descriptor for every name but ["write"] and
    ["ffi"], where the inline one builds the unscoped descriptor; without a
    scope the two agree for every name. *)
Theorem X15_the_two_desc_agree_but_for_write_and_ffi (n : PName) (o : option string) :
  MapPermissionManager.desc n o =
    (if decide (n = Write ∨ n = Ffi) then unscoped n else PermissionManager.desc n o)
  ∧ MapPermissionManager.desc n None = PermissionManager.desc n None.
Proof. by destruct n. Qed.

(** ** The file helpers *)

Section FileHelpers.
Variables DirEntry Data : Type.
Variable Deno_cwd : Completion string.
Variable Deno_readDir : string → Completion (list DirEntry).
Variable Deno_readFile : string → Completion Data.
Variable TextDecoder : string → Completion (Data → string).

Lemma fold_left_push {A} (l acc : list A) :
  fold_left (λ dirs member, dirs ++ [member]) l acc = acc ++ l.
Proof.
  revert acc. induction l as [|x l IH]; intros acc; cbn [fold_left].
  - by rewrite app_nil_r.
  - by rewrite IH, <- app_assoc.
Qed.

Lemma collect_run (path : string) :
  Mod.collect DirEntry Deno_readDir path = Deno_readDir path.
Proof.
  unfold Mod.collect. destruct (Deno_readDir path) as [dir|e]; [|done].
  by rewrite fold_left_push.
Qed.

Lemma ls_run (d : option string) :
  Mod.ls DirEntry Deno_cwd Deno_readDir d =
    match Mod.truthy_string d with
    | Some path => Deno_readDir path
    | None =>
        match Deno_cwd with
        | Return path => Deno_readDir path
        | Throw e => Throw e
        end
    end.
Proof.
  unfold Mod.ls, Mod.pwd. destruct (Mod.truthy_string d); [apply collect_run|].
  destruct Deno_cwd; [apply collect_run|done].
Qed.

(** X16. [ls(d)] for a non-empty [d] completes as the host's [readDir] of
    [d] does: with its entries, all of them and in the host's order, or with
    its error. Without a directory, and with the empty string, it completes
    as [readDir] of the working directory does, and when [Deno.cwd()] throws
    it throws that error, whatever reading a directory would give.
    [isDir(d)] is [true] exactly when [ls(d)] returns; so [isDir("")]
    answers for the working directory when there is one, and is [false]
    when [Deno.cwd()] throws. *)
Theorem X16_ls_and_isDir (d : option string) (p : string) :
  Mod.ls DirEntry Deno_cwd Deno_readDir d =
    match d with
    | Some (String a path) => Deno_readDir (String a path)
    | _ =>
        match Deno_cwd with
        | Return cwd => Deno_readDir cwd
        | Throw e => Throw e
        end
    end
  ∧ Mod.ls DirEntry Deno_cwd Deno_readDir (Some "") = Mod.ls DirEntry Deno_cwd Deno_readDir None
  ∧ (Mod.isDir DirEntry Deno_cwd Deno_readDir p = true ↔
     ∃ dirs, Mod.ls DirEntry Deno_cwd Deno_readDir (Some p) = Return dirs)
  ∧ match Deno_cwd with
    | Return cwd =>
        Mod.isDir DirEntry Deno_cwd Deno_readDir "" =
        Mod.isDir DirEntry Deno_cwd Deno_readDir cwd
    | Throw _ => Mod.isDir DirEntry Deno_cwd Deno_readDir "" = false
    end.
Proof.
  split_and!.
  - rewrite ls_run. by destruct d as [[|a path]|].
  - by rewrite !ls_run.
  - unfold Mod.isDir. destruct (Mod.ls DirEntry Deno_cwd Deno_readDir (Some p)) as [dirs|e].
    + split; [by eexists|done].
    + split; [done|by intros [dirs ?]].
  - unfold Mod.isDir. rewrite ls_run. cbn [Mod.truthy_string].
    rewrite bool_decide_eq_true_2 by done.
    pose proof ls_run as Hls. destruct Deno_cwd as [cwd|e] eqn:Hcwd; [|done].
    rewrite Hls. cbn [Mod.truthy_string]. by case_bool_decide; subst.
Qed.

(** X17. When the host makes a decoder for the encoding label, [cat(f, e)]
    returns exactly when [isFile(f)] is [true], with the decoding of the
    file's data, and otherwise throws the error of reading the file; when
    the host makes no decoder for the label, [cat] throws that error whether
    the file is there or not. *)
Theorem X17_cat_returns_iff_isFile (f : string) (e : option string) :
  match TextDecoder (default "utf-8" e) with
  | Return decoder =>
      (Mod.isFile Data Deno_readFile f = true ↔
       ∃ s, Mod.cat Data Deno_readFile TextDecoder f e = Return s)
      ∧ (∀ data, Deno_readFile f = Return data →
                 Mod.cat Data Deno_readFile TextDecoder f e = Return (decoder data))
      ∧ (∀ x, Deno_readFile f = Throw x →
              Mod.cat Data Deno_readFile TextDecoder f e = Throw x
              ∧ Mod.isFile Data Deno_readFile f = false)
  | Throw x => Mod.cat Data Deno_readFile TextDecoder f e = Throw x
  end.
Proof.
  unfold Mod.isFile, Mod.cat.
  destruct (TextDecoder (default "utf-8" e)) as [decoder|x]; [|done].
  destruct (Deno_readFile f) as [data|x]; split_and!.
  - split; [by eexists|done].
  - by intros ? [= <-].
  - done.
  - split; [done|by intros [s ?]].
  - done.
  - by intros ? [= <-].
Qed.

End FileHelpers.

(** ** The shell template tag *)

Lemma string_app_empty_r (x : string) : x +:+ "" = x.
Proof.
  induction x as [|a x IH]; [done|].
  change (String a (x +:+ "") = String a x). by rewrite IH.
Qed.

Lemma string_app_assoc (x y z : string) : x +:+ (y +:+ z) = (x +:+ y) +:+ z.
Proof.
  induction x as [|a x IH]; [done|].
  change (String a (x +:+ (y +:+ z)) = String a ((x +:+ y) +:+ z)). by rewrite IH.
Qed.

Lemma concat_empty_cons (x : string) (l : list string) :
  String.concat "" (x :: l) = x +:+ String.concat "" l.
Proof.
  destruct l as [|y l]; cbn [String.concat]; [|done].
  by rewrite string_app_empty_r.
Qed.

Section ShellValues.
Variable Value : Type.
Variable truthy : Value → bool.
Variable ToString : Value → Completion string.
Variable undefined_plus : Value → Completion string.

Lemma cmdline_cons (str : option string) (strings : list (option string))
    (v : Value) (values : list Value) :
  Shell.cmdline Value truthy ToString undefined_plus (str :: strings) (v :: values) =
    match Shell.piece Value truthy ToString undefined_plus str (Some v) with
    | Return first =>
        match Shell.cmdline Value truthy ToString undefined_plus strings values with
        | Return rest => Return (first +:+ rest)
        | Throw e => Throw e
        end
    | Throw e => Throw e
    end.
Proof.
  unfold Shell.cmdline. cbn [imap all_of lookup list_lookup].
  destruct (Shell.piece _ _ _ _ str (Some v)) as [first|e]; [|done].
  change (imap _ strings) with
    (imap (λ i str, Shell.piece Value truthy ToString undefined_plus str (values !! i)) strings).
  destruct (all_of _) as [pieces|e]; [|done].
  by rewrite concat_empty_cons.
Qed.

Lemma cmdline_cons_nil (str : option string) (strings : list (option string)) :
  Shell.cmdline Value truthy ToString undefined_plus (str :: strings) [] =
    match Shell.cmdline Value truthy ToString undefined_plus strings [] with
    | Return rest => Return (Shell.plus_empty str +:+ rest)
    | Throw e => Throw e
    end.
Proof.
  unfold Shell.cmdline. cbn [imap all_of lookup list_lookup Shell.piece].
  change (imap _ strings) with
    (imap (λ i str, Shell.piece Value truthy ToString undefined_plus str
                      (@nil Value !! i)) strings).
  destruct (all_of _) as [pieces|e]; [|done].
  by rewrite concat_empty_cons.
Qed.

(** X18. The command line that the template tag builds is the string parts
    interleaved with the values: after a string part a truthy value
    contributes the string it converts to and a falsy one nothing, and when
    the conversion of a truthy value throws the tag throws that error.
    Without values the command line is the string parts joined; without
    string parts it is empty; values past the last string part are ignored.
    A string part that is [undefined] is joined as ["undefined"] when its
    value is falsy or missing, and as what [undefined + v] gives, or throws,
    for a truthy [v]. *)
Theorem X18_cmdline_interleaves_strings_and_truthy_values :
  (∀ s ss v vs,
     Shell.cmdline Value truthy ToString undefined_plus (Some s :: ss) (v :: vs) =
       match (if truthy v then ToString v else Return "") with
       | Return t =>
           match Shell.cmdline Value truthy ToString undefined_plus ss vs with
           | Return rest => Return (s +:+ t +:+ rest)
           | Throw e => Throw e
           end
       | Throw e => Throw e
       end)
  ∧ (∀ ss, Shell.cmdline Value truthy ToString undefined_plus (map Some ss) [] =
           Return (String.concat "" ss))
  ∧ (∀ vs, Shell.cmdline Value truthy ToString undefined_plus [] vs = Return "")
  ∧ (∀ ss vs, Shell.cmdline Value truthy ToString undefined_plus ss vs =
              Shell.cmdline Value truthy ToString undefined_plus ss (take (length ss) vs))
  ∧ (∀ ss v vs,
       Shell.cmdline Value truthy ToString undefined_plus (None :: ss) (v :: vs) =
         match (if truthy v then undefined_plus v else Return "undefined") with
         | Return t =>
             match Shell.cmdline Value truthy ToString undefined_plus ss vs with
             | Return rest => Return (t +:+ rest)
             | Throw e => Throw e
             end
         | Throw e => Throw e
         end)
  ∧ (∀ ss, Shell.cmdline Value truthy ToString undefined_plus (None :: ss) [] =
           match Shell.cmdline Value truthy ToString undefined_plus ss [] with
           | Return rest => Return ("undefined" +:+ rest)
           | Throw e => Throw e
           end).
Proof.
  split_and!.
  - intros s ss v vs. rewrite cmdline_cons. unfold Shell.piece.
    destruct (truthy v).
    + destruct (ToString v) as [t|e]; [|done].
      destruct (Shell.cmdline _ _ _ _ ss vs) as [rest|e]; [|done].
      by rewrite string_app_assoc.
    + by destruct (Shell.cmdline _ _ _ _ ss vs) as [rest|e].
  - intros ss. induction ss as [|s ss IH]; [done|].
    cbn [map]. rewrite cmdline_cons_nil, IH. by rewrite concat_empty_cons.
  - done.
  - intros ss vs. unfold Shell.cmdline.
    assert (imap (λ i str, Shell.piece Value truthy ToString undefined_plus str (vs !! i)) ss =
            imap (λ i str, Shell.piece Value truthy ToString undefined_plus str
                             (take (length ss) vs !! i)) ss) as ->; [|done].
    apply imap_ext. intros i s Hi. cbn. f_equal.
    rewrite lookup_take_lt; [done|]. by eapply lookup_lt_Some.
  - intros ss v vs. rewrite cmdline_cons. unfold Shell.piece, Shell.plus_empty.
    by destruct (truthy v).
  - intros ss. by rewrite cmdline_cons_nil.
Qed.

End ShellValues.

(** ** The two managers side by side *)

Lemma map_forEach_distinct (ds : list P) (w : World MapPermissionManager.Registry) :
  NoDup (name <$> ds) →
  (∀ d, d ∈ ds → this_permissions w !! name_str (name d) = None) →
  let w' := exec (forEach (λ d, MapPermissionManager.pushPermission (Desc d)) ds) w in
  host_log w' = host_log w ++ map Request ds
  ∧ MapPermissionManager.values (this_permissions w') ≡ₚ
      MapPermissionManager.values (this_permissions w) ++
      imap (λ i d, request_promise (length (host_log w) + i) d) ds.
Proof.
  revert w. induction ds as [|d ds IH]; intros w Hnd Hfree w'; subst w'.
  - cbn. by rewrite !app_nil_r.
  - apply NoDup_cons in Hnd as [Hd Hnd].
    cbn [forEach]. rewrite exec_seq. unfold exec at 2 4.
    rewrite map_pushPermission_Desc_run, (Hfree d) by left. cbn [snd].
    set (w1 := mkWorld _ _).
    destruct (IH w1 Hnd) as [Hlog Hvals].
    { intros d' Hd'. subst w1. cbn [this_permissions].
      rewrite lookup_insert_ne; [apply Hfree; by right|].
      intros Heq%name_str_inj. apply Hd. rewrite Heq.
      apply list_elem_of_fmap. by exists d'. }
    split.
    + rewrite Hlog. subst w1. cbn [host_log map]. by rewrite <- app_assoc.
    + rewrite Hvals. subst w1. cbn [host_log this_permissions imap].
      rewrite values_insert by (apply Hfree; left).
      rewrite Nat.add_0_r, length_app. cbn [length app].
      rewrite <- Permutation_middle.
      assert (imap (λ i d0, request_promise (length (host_log w) + 1 + i) d0) ds =
              imap ((λ i d0, request_promise (length (host_log w) + i) d0) ∘ S) ds) as ->.
      { apply imap_ext. intros i x _. simpl. f_equal. lia. }
      done.
Qed.

(** The map's values come in the order of their tickets, and a list of
    pairwise distinct tickets has one such order. *)
Lemma ticket_le_total : Total MapPermissionManager.ticket_le.
Proof. intros p q. unfold MapPermissionManager.ticket_le. lia. Qed.

Lemma ticket_le_trans : Transitive MapPermissionManager.ticket_le.
Proof. intros p q r. unfold MapPermissionManager.ticket_le. lia. Qed.

Lemma values_StronglySorted (m : MapPermissionManager.Registry) :
  StronglySorted MapPermissionManager.ticket_le (MapPermissionManager.values m).
Proof.
  pose proof ticket_le_total. pose proof ticket_le_trans.
  unfold MapPermissionManager.values. apply StronglySorted_merge_sort; apply _.
Qed.

Lemma sorted_by_ticket_unique (l1 l2 : list (Promise bool)) :
  StronglySorted MapPermissionManager.ticket_le l1 →
  StronglySorted (λ p q, (ticket p < ticket q)%nat) l2 →
  l1 ≡ₚ l2 → l1 = l2.
Proof.
  intros H1. revert l2. induction H1 as [|y l1 Hs IH Hy]; intros l2 H2 Hp.
  - symmetry. by apply Permutation_nil.
  - destruct H2 as [|x l2 Hs2 Hx].
    { by apply Permutation_sym, Permutation_nil_cons in Hp. }
    assert (y = x) as ->.
    { assert (Hin : y ∈ x :: l2) by (rewrite <- Hp; left).
      apply elem_of_cons in Hin as [->|Hin]; [done|].
      assert (Hin' : x ∈ y :: l1) by (rewrite Hp; left).
      apply elem_of_cons in Hin' as [->|Hin']; [done|].
      rewrite Forall_forall in Hx, Hy.
      specialize (Hx _ Hin). specialize (Hy _ Hin').
      unfold MapPermissionManager.ticket_le in Hy. lia. }
    f_equal. apply IH; [done|]. by apply Permutation_cons_inv in Hp.
Qed.

Lemma imap_request_promise_sorted (k : nat) (ds : list P) :
  StronglySorted (λ p q, (ticket p < ticket q)%nat)
                 (imap (λ i d, request_promise (k + i) d) ds)
  ∧ Forall (λ p, (k ≤ ticket p)%nat) (imap (λ i d, request_promise (k + i) d) ds).
Proof.
  revert k. induction ds as [|d ds IH]; intros k; cbn [imap].
  - split; constructor.
  - assert (imap ((λ i d0, request_promise (k + i) d0) ∘ S) ds =
            imap (λ i d0, request_promise (S k + i) d0) ds) as ->.
    { apply imap_ext. intros i x _. simpl. f_equal. lia. }
    destruct (IH (S k)) as [Hs Hk]. split.
    + constructor; [done|]. eapply Forall_impl; [exact Hk|].
      intros p Hp. cbn. cbn in Hp. lia.
    + constructor; [cbn; lia|]. eapply Forall_impl; [exact Hk|].
      intros p Hp. cbn in Hp. lia.
Qed.

(** X19. As long as no name is accumulated twice the two managers agree:
    for descriptors of pairwise distinct names, accumulated in turn on a
    fresh manager, both make the same host requests, one per descriptor and
    in order, both track the same promises, and [wait()] of the map-backed
    one is [settle()] of the array-backed one. *)
Theorem X19_the_two_managers_agree_on_distinct_names (answer : Oracle) (ds : list P) :
  NoDup (name <$> ds) →
  let w1 := exec (forEach (λ d, MapPermissionManager.pushPermission (Desc d)) ds)
                 MapPermissionManager.fresh in
  let w2 := exec (forEach (λ d, PermissionManager.pushPermission (Desc d)) ds)
                 PermissionManager.fresh in
  host_log w1 = map Request ds
  ∧ host_log w2 = map Request ds
  ∧ MapPermissionManager.values (this_permissions w1) ≡ₚ this_permissions w2
  ∧ eval (MapPermissionManager.wait answer) w1 = eval (PermissionManager.settle answer) w2.
Proof.
  intros Hnd w1 w2.
  destruct (map_forEach_distinct ds MapPermissionManager.fresh Hnd) as [Hlog Hvals];
    [done|]. fold w1 in Hlog, Hvals.
  assert (Hw2 : w2 = mkWorld (map Request ds)
                             (imap (λ i d, request_promise i d) ds)).
  { subst w2. unfold exec.
    by rewrite (forEach_pushPermission (λ d, d) ds PermissionManager.fresh). }
  assert (Hsame : MapPermissionManager.values (this_permissions w1) ≡ₚ this_permissions w2).
  { rewrite Hvals, Hw2. cbn. by rewrite values_Permutation, map_to_list_empty. }
  split_and!; [done|by rewrite Hw2|done|].
  assert (Heq : MapPermissionManager.values (this_permissions w1) = this_permissions w2).
  { apply sorted_by_ticket_unique; [apply values_StronglySorted| |done].
    rewrite Hw2. cbn [this_permissions].
    apply (imap_request_promise_sorted 0 ds). }
  unfold eval. rewrite wait_run, settle_run. cbn [fst]. by rewrite Heq.
Qed.

(** X19 for [read:a] and [write:b]. *)
Lemma X19_witness :
  let ds := [Permission.read (Some "a"); Permission.write (Some "b")] in
  let w1 := exec (forEach (λ d, MapPermissionManager.pushPermission (Desc d)) ds)
                 MapPermissionManager.fresh in
  let w2 := exec (forEach (λ d, PermissionManager.pushPermission (Desc d)) ds)
                 PermissionManager.fresh in
  host_log w1 = map Request ds
  ∧ host_log w2 = map Request ds
  ∧ MapPermissionManager.values (this_permissions w1) ≡ₚ this_permissions w2
  ∧ eval (MapPermissionManager.wait host_grants_all) w1 =
    eval (PermissionManager.settle host_grants_all) w2.
Proof.
  apply (X19_the_two_managers_agree_on_distinct_names host_grants_all
           [Permission.read (Some "a"); Permission.write (Some "b")]).
  apply (bool_decide_unpack _). vm_compute. reflexivity.
Defined.
